(** * kiro-total-recall: the indexing and query engine, verified

    A shallow embedding of [models.py], [config.py], [loader.py],
    [indexer.py] and [query.py], followed by the properties of the engine
    that the design document states.

    Conventions of the embedding.
    - A [datetime] is an integer: POSIX microseconds, so that
      [datetime.timestamp()] is the identity up to the unit, and
      [datetime.min] is the smallest value a session can fall back to.
    - Embedding vectors are fixed-point: components carry two decimals, so
      a dot product (a similarity score, a threshold) carries four and 0.2
      is 2000.  The floats of the code are finer than that, so nothing is
      assumed of [round(score, 4)] beyond its being monotone, and nothing
      of the order in which [np.argsort] leaves equal elements.
    - Python dictionaries are [gmap]s, lists are lists, [None] is [None]. *)

From Stdlib Require Import ZArith String Ascii List Lia Sorted Permutation.
From stdpp Require Import base tactics option list sorting gmap strings pretty.

Local Open Scope Z_scope.
Local Open Scope list_scope.

(** ** models.py *)

Inductive Source := CLI | IDE.

Definition Source_eqb (a b : Source) : bool :=
  match a, b with
  | CLI, CLI | IDE, IDE => true
  | _, _ => false
  end.

Abbreviation datetime := Z.

(** [datetime.min], 0001-01-01T00:00:00, in POSIX microseconds. *)
Definition datetime_min : datetime := -62135596800000000.

Record IndexedMessage := {
  uuid : string;
  session_id : string;
  workspace : string;
  timestamp : datetime;
  role : string;
  searchable_text : string;
  message_index : Z;
  source : Source
}.

Record SessionInfo := {
  si_session_id : string;
  si_workspace : string;
  message_count : Z;
  created : option datetime;
  modified : option datetime;
  si_source : Source
}.

(** [self.modified or self.created or datetime.min]: a datetime is always
    truthy, so [or] only skips [None]. *)
Definition timestamp_fallback (s : SessionInfo) : datetime :=
  match modified s with
  | Some m => m
  | None => match created s with
            | Some c => c
            | None => datetime_min
            end
  end.

(** ** config.py *)

Definition EMBEDDING_DIM : nat := 384.
Definition BYTES_PER_MESSAGE : Z := 2600.

Record SearchConfig := {
  default_threshold : Z;
  default_max_results : Z;
  default_context_window : Z
}.

(** The dataclass defaults: 0.2, 10 and 3. *)
Definition SearchConfig_default : SearchConfig :=
  {| default_threshold := 2000;
     default_max_results := 10;
     default_context_window := 3 |}.

Record Config := {
  cli_enabled : bool;
  ide_enabled : bool;
  search_defaults : SearchConfig
}.

Definition Config_default : Config :=
  {| cli_enabled := true; ide_enabled := true; search_defaults := SearchConfig_default |}.

(** ** Python's [sorted] and [list.sort]

    Both are stable, also under [reverse=True]; a stable sort is determined
    by its order, so insertion from the right computes the same list. *)

Section StableSort.
Context {A : Type} (le : A -> A -> bool).

Fixpoint insert_sorted (x : A) (l : list A) : list A :=
  match l with
  | [] => [x]
  | y :: l' => if le x y then x :: l else y :: insert_sorted x l'
  end.

Definition stable_sort (l : list A) : list A := foldr insert_sorted [] l.
End StableSort.

(** [sorted(l, key=key)] *)
Definition sorted_by {A} (key : A -> Z) (l : list A) : list A :=
  stable_sort (fun a b => key a <=? key b) l.

(** [sorted(l, key=key, reverse=True)] *)
Definition sorted_by_reverse {A} (key : A -> Z) (l : list A) : list A :=
  stable_sort (fun a b => key b <=? key a) l.

(** ** indexer.py: the memory budgeter *)

Definition estimated_bytes (session : SessionInfo) : Z :=
  let msg_count := if 0 <? message_count session then message_count session else 10 in
  msg_count * BYTES_PER_MESSAGE.

(** The state of the greedy loop: [selected], [excluded], [current_bytes]. *)
Definition select_step (memory_limit_bytes : Z)
    (acc : list SessionInfo * list SessionInfo * Z) (session : SessionInfo)
    : list SessionInfo * list SessionInfo * Z :=
  let '(selected, excluded, current_bytes) := acc in
  let estimated := estimated_bytes session in
  if current_bytes + estimated <=? memory_limit_bytes
  then (selected ++ [session], excluded, current_bytes + estimated)
  else (selected, excluded ++ [session], current_bytes).

Definition select_sessions_within_limit
    (sessions : list SessionInfo) (memory_limit_bytes : Z)
    : list SessionInfo * list SessionInfo :=
  if memory_limit_bytes <=? 0 then (sessions, [])
  else
    let sorted_sessions := sorted_by_reverse timestamp_fallback sessions in
    let '(selected, excluded, _) :=
      fold_left (select_step memory_limit_bytes) sorted_sessions ([], [], 0) in
    (selected, excluded).

(** ** External capabilities

    What the engine calls but does not implement: the hash, the embedding
    model, the rendering of a float and the standard library's ISO-8601
    parser ([None] stands for its [ValueError]; the flag tells whether the
    parsed datetime carries a [tzinfo]).

    Two more are numerical.  [round x ndigits] is the builtin [round] on a
    score, of which only monotonicity is known.  [argsort_ties a] ranks the
    positions of [a] as [np.argsort] orders those that hold equal elements:
    the default sort kind of numpy is not stable, its order among equal
    elements differs from one build of numpy to the next, and the engine
    adds no tie-break of its own. *)

Abbreviation vec := (list Z).

Class Capabilities := {
  md5_hexdigest : string -> string;
  model_encode : string -> vec;
  float_str : Z -> string;
  fromisoformat : string -> option (datetime * bool);
  round : Z -> Z -> Z;
  round_mono : ∀ x y ndigits, x <= y -> round x ndigits <= round y ndigits;
  argsort_ties : list Z -> nat -> Z
}.

(** What the engine does to the outside world, in order. *)
Inductive event :=
| BuildIndex
| EncodeBatch (texts : list string)
| EncodeQuery (query : string)
| SaveCache (hashes : list string).

Record World := {
  config : Config;
  cli_sessions : list SessionInfo;
  ide_sessions : list SessionInfo;
  cli_session_messages : SessionInfo -> list IndexedMessage;
  ide_session_messages : SessionInfo -> list IndexedMessage;
  memory_limit : Z;
  cache_file : gmap string vec;
  cache_writable : bool;
  events : list event
}.

Definition log (e : event) (w : World) : World :=
  {| config := config w;
     cli_sessions := cli_sessions w;
     ide_sessions := ide_sessions w;
     cli_session_messages := cli_session_messages w;
     ide_session_messages := ide_session_messages w;
     memory_limit := memory_limit w;
     cache_file := cache_file w;
     cache_writable := cache_writable w;
     events := events w ++ [e] |}.

Definition write_cache (c : gmap string vec) (w : World) : World :=
  {| config := config w;
     cli_sessions := cli_sessions w;
     ide_sessions := ide_sessions w;
     cli_session_messages := cli_session_messages w;
     ide_session_messages := ide_session_messages w;
     memory_limit := memory_limit w;
     cache_file := c;
     cache_writable := cache_writable w;
     events := events w |}.

(** ** loader.py *)

Definition list_all_sessions (w : World) : list SessionInfo :=
  let sessions :=
    (if cli_enabled (config w) then cli_sessions w else []) ++
    (if ide_enabled (config w) then ide_sessions w else []) in
  sorted_by_reverse timestamp_fallback sessions.

Definition load_session_messages (w : World) (session : SessionInfo)
    : list IndexedMessage :=
  match si_source session with
  | CLI => cli_session_messages w session
  | IDE => ide_session_messages w session
  end.

Definition load_messages_for_sessions (w : World) (sessions : list SessionInfo)
    : list IndexedMessage :=
  flat_map (load_session_messages w) sessions.

(** ** indexer.py: the index *)

Record ConversationIndex := {
  _messages : list IndexedMessage;
  _embeddings : option (list vec);
  _text_hashes : list string;
  _sessions_fingerprint : string;
  _excluded_session_count : nat;
  _timestamp_order : option (list nat);
  _sorted_timestamps : option (list Z)
}.

(** [ConversationIndex.__init__] *)
Definition ConversationIndex_init : ConversationIndex :=
  {| _messages := [];
     _embeddings := None;
     _text_hashes := [];
     _sessions_fingerprint := EmptyString;
     _excluded_session_count := 0;
     _timestamp_order := None;
     _sorted_timestamps := None |}.

Definition enumerate {A} (l : list A) : list (nat * A) :=
  zip (seq 0 (length l)) l.

(** [np.argsort(a)]: the positions of [a] in ascending order of their
    elements.  numpy promises no more; positions that hold equal elements
    come in the order of their rank under [argsort_ties a], of which
    nothing is assumed. *)
Definition argsort `{Capabilities} (a : list Z) : list nat :=
  (stable_sort (fun p q => p.2 <=? q.2)
     (stable_sort (fun p q => argsort_ties a p.1 <=? argsort_ties a q.1)
                  (enumerate a))).*1.

(** [a[order]], fancy indexing of a float array. *)
Definition take_at (a : list Z) (order : list nat) : list Z :=
  map (fun i => nth i a 0) order.

Definition join_lines (parts : list string) : string :=
  String.concat (String (ascii_of_nat 10) EmptyString) parts.

Section Engine.
Context `{Capabilities}.

Definition _compute_text_hash (text : string) : string := md5_hexdigest text.

(** [datetime.timestamp()] on the naive datetimes of the loaders converts
    through local time.  It returns for every datetime from the second
    day of 1970 up to the year 3000 wherever the interpreter runs; at
    [datetime.min], the fallback of a session with neither date, it raises
    [ValueError]. *)
Definition timestamp_returns (t : datetime) : Prop :=
  86400000000 <= t < 32503680000000000.

(** The worlds in which [_get_sessions_fingerprint] returns.  It calls
    [timestamp()] on the fallback of every listed session and catches
    nothing; where that raises, so do [needs_rebuild], [build_index] and
    the search that called them, and the value given below stands for no
    run of the code. *)
Definition sessions_dated (w : World) : Prop :=
  Forall (fun s => timestamp_returns (timestamp_fallback s)) (list_all_sessions w).

Definition _get_sessions_fingerprint (w : World) : string :=
  let sessions := list_all_sessions w in
  let parts :=
    map (fun s => (si_session_id s +:+ ":" +:+ float_str (timestamp_fallback s))%string)
        sessions in
  md5_hexdigest (join_lines (stable_sort String.leb parts)).

(** [_load_cache]: an unreadable file is the empty cache, which is how
    [cache_file] records it. *)
Definition _load_cache (w : World) : gmap string vec := cache_file w.

(** [_save_cache]: [{**existing, **new_embeddings}]; an [OSError] while
    locking or writing is swallowed and leaves the file as it was. *)
Definition _save_cache (new_embeddings : gmap string vec) (w : World) : World :=
  if cache_writable w
  then
    let existing := _load_cache w in
    let merged := new_embeddings ∪ existing in
    log (SaveCache (map_to_list new_embeddings).*1) (write_cache merged w)
  else w.

Definition _build_metadata_indices (messages : list IndexedMessage)
    : list nat * list Z :=
  match messages with
  | [] => ([], [])
  | _ =>
    let timestamps := map timestamp messages in
    let timestamp_order := argsort timestamps in
    (timestamp_order, take_at timestamps timestamp_order)
  end.

Definition needs_rebuild (w : World) (st : ConversationIndex) : bool :=
  negb (String.eqb (_get_sessions_fingerprint w) (_sessions_fingerprint st)).

(** The first loop of [build_index], from message number [i] on:
    [(text_hashes, texts_to_embed, indices_to_embed)]. *)
Fixpoint scan_messages (cache : gmap string vec) (i : nat)
    (messages : list IndexedMessage) : list string * list string * list nat :=
  match messages with
  | [] => ([], [], [])
  | msg :: rest =>
    let '(hashes, texts, indices) := scan_messages cache (S i) rest in
    let text_hash := _compute_text_hash (searchable_text msg) in
    match cache !! text_hash with
    | Some _ => (text_hash :: hashes, texts, indices)
    | None => (text_hash :: hashes, searchable_text msg :: texts, i :: indices)
    end
  end.

(** The second loop: rows whose hash is cached are filled from the cache. *)
Definition load_cached (cache : gmap string vec) (text_hashes : list string)
    (embeddings : list vec) : list vec :=
  fold_left
    (fun emb '(i, text_hash) =>
       match cache !! text_hash with
       | Some v => <[i := v]> emb
       | None => emb
       end)
    (enumerate text_hashes) embeddings.

(** [range(0, len(l), batch_size)] and the slices taken at each start. *)
Fixpoint batches_from {A} (fuel : nat) (batch_size : nat) (l : list A)
    : list (list A) :=
  match fuel with
  | O => []
  | S fuel' =>
    match l with
    | [] => []
    | _ => take batch_size l :: batches_from fuel' batch_size (drop batch_size l)
    end
  end.

Definition batches {A} (batch_size : nat) (l : list A) : list (list A) :=
  batches_from (length l) batch_size l.

(** The inner loop over one batch: row [idx] of the matrix and the entry
    of its hash in [new_cache] take the [i]-th vector of the batch. *)
Definition store_row (text_hashes : list string) (batch_embeddings : list vec)
    (acc : list vec * gmap string vec) (p : nat * nat)
    : list vec * gmap string vec :=
  let '(emb, new_cache) := acc in
  let '(i, idx) := p in
  let v := nth i batch_embeddings [] in
  (<[idx := v]> emb, <[nth idx text_hashes EmptyString := v]> new_cache).

Definition store_batch (text_hashes : list string) (batch_embeddings : list vec)
    (batch_indices : list nat) (acc : list vec * gmap string vec)
    : list vec * gmap string vec :=
  fold_left (store_row text_hashes batch_embeddings)
            (enumerate batch_indices) acc.

(** One pass of the batch loop: one call of the model. *)
Definition embed_batch (text_hashes : list string)
    (acc : list vec * gmap string vec * World)
    (batch : list string * list nat) : list vec * gmap string vec * World :=
  let '(emb, new_cache, w) := acc in
  let '(batch_texts, batch_indices) := batch in
  let batch_embeddings := map model_encode batch_texts in
  let '(emb', new_cache') :=
    store_batch text_hashes batch_embeddings batch_indices (emb, new_cache) in
  (emb', new_cache', log (EncodeBatch batch_texts) w).

Definition build_index (w : World) (st : ConversationIndex)
    : World * ConversationIndex :=
  let w := log BuildIndex w in
  let fingerprint := _get_sessions_fingerprint w in
  let all_sessions := list_all_sessions w in
  let '(selected, excluded) :=
    select_sessions_within_limit all_sessions (memory_limit w) in
  let messages := load_messages_for_sessions w selected in
  match messages with
  | [] =>
    (w, {| _messages := [];
           _embeddings := Some [];
           _text_hashes := [];
           _sessions_fingerprint := fingerprint;
           _excluded_session_count := length excluded;
           _timestamp_order := _timestamp_order st;
           _sorted_timestamps := _sorted_timestamps st |})
  | _ =>
    let cache := _load_cache w in
    let '(text_hashes, texts_to_embed, indices_to_embed) :=
      scan_messages cache 0 messages in
    let zeros := replicate (length messages) (replicate EMBEDDING_DIM 0) in
    let embeddings := load_cached cache text_hashes zeros in
    let batch_size := 100%nat in
    let '(embeddings, new_cache, w) :=
      fold_left (embed_batch text_hashes)
        (zip (batches batch_size texts_to_embed)
             (batches batch_size indices_to_embed))
        (embeddings, ∅, w) in
    let w := if decide (new_cache = ∅) then w else _save_cache new_cache w in
    let '(timestamp_order, sorted_timestamps) := _build_metadata_indices messages in
    (w, {| _messages := messages;
           _embeddings := Some embeddings;
           _text_hashes := text_hashes;
           _sessions_fingerprint := fingerprint;
           _excluded_session_count := length excluded;
           _timestamp_order := Some timestamp_order;
           _sorted_timestamps := Some sorted_timestamps |})
  end.

Definition ensure_index (w : World) (st : ConversationIndex)
    : World * ConversationIndex :=
  match _embeddings st with
  | None => build_index w st
  | Some _ => if needs_rebuild w st then build_index w st else (w, st)
  end.

End Engine.

(** ** indexer.py: search *)

(** A date bound as [search] passes it to [np.searchsorted]:
    [float("-inf")], a timestamp, or [float("inf")]. *)
Inductive bound := NegInf | At (t : Z) | PosInf.

Definition lt_bound (x : Z) (b : bound) : bool :=
  match b with
  | NegInf => false
  | At t => x <? t
  | PosInf => true
  end.

(** [np.searchsorted(a, v, side="left")] on an ascending array: the number
    of elements below [v]. *)
Fixpoint searchsorted_left (a : list Z) (v : bound) : nat :=
  match a with
  | [] => O
  | x :: a' => if lt_bound x v then S (searchsorted_left a' v) else O
  end.

(** [np.dot] of two vectors. *)
Definition dot (u v : vec) : Z := foldr Z.add 0 (zip_with Z.mul u v).

(** [s] is truthy and [text] does not start with it. *)
Definition workspace_mismatch (workspace_filter : option string) (msg : IndexedMessage)
    : bool :=
  match workspace_filter with
  | None => false
  | Some EmptyString => false
  | Some p => negb (String.prefix p (workspace msg))
  end.

Definition source_mismatch (source_filter : option Source) (msg : IndexedMessage)
    : bool :=
  match source_filter with
  | None => false
  | Some s => negb (Source_eqb (source msg) s)
  end.

Section SearchWalk.
Variable messages : list IndexedMessage.
Variable candidate_indices : list nat.
Variable similarities : list Z.
Variable workspace_filter : option string.
Variable source_filter : option Source.
Variable threshold : Z.
Variable max_results : Z.

(** The result loop of [search], over what is left of
    [sorted_local_indices], with the [results] so far.  A candidate that
    is no row of the index would be an [IndexError]; there is none in a
    built index. *)
Fixpoint search_walk (order : list nat) (results : list (IndexedMessage * Z))
    : list (IndexedMessage * Z) :=
  match order with
  | [] => results
  | local_idx :: rest =>
    let score := nth local_idx similarities 0 in
    if score <? threshold then results
    else
      let global_idx := nth local_idx candidate_indices O in
      match messages !! global_idx with
      | None => results
      | Some msg =>
        if workspace_mismatch workspace_filter msg then search_walk rest results
        else if source_mismatch source_filter msg then search_walk rest results
        else
          let results := results ++ [(msg, score)] in
          if max_results <=? Z.of_nat (length results) then results
          else search_walk rest results
      end
  end.
End SearchWalk.

(** [candidate_indices] of [search]. *)
Definition date_candidates (st : ConversationIndex) (after before : option datetime)
    : list nat :=
  match after, before with
  | None, None => seq 0 (length (_messages st))
  | _, _ =>
    let after_ts := match after with Some a => At a | None => NegInf end in
    let before_ts := match before with Some b => At b | None => PosInf end in
    let sorted_timestamps := default [] (_sorted_timestamps st) in
    let start_idx := searchsorted_left sorted_timestamps after_ts in
    let end_idx := searchsorted_left sorted_timestamps before_ts in
    take (end_idx - start_idx) (drop start_idx (default [] (_timestamp_order st)))
  end.

(** [np.argsort(similarities)[::-1]] *)
Definition sorted_local_indices `{Capabilities} (similarities : list Z) : list nat :=
  rev (argsort similarities).

Section Search.
Context `{Capabilities}.

Definition search (query : string) (workspace_filter : option string)
    (source_filter : option Source) (threshold : Z) (max_results : Z)
    (after before : option datetime) (w : World) (st : ConversationIndex)
    : World * ConversationIndex * list (IndexedMessage * Z) :=
  let '(w, st) := ensure_index w st in
  match _embeddings st with
  | None | Some [] => (w, st, [])
  | Some embeddings =>
    let candidate_indices := date_candidates st after before in
    match candidate_indices with
    | [] => (w, st, [])
    | _ =>
      let query_embedding := model_encode query in
      let w := log (EncodeQuery query) w in
      let candidate_embeddings :=
        map (fun i => nth i embeddings []) candidate_indices in
      let similarities :=
        map (fun row => dot row query_embedding) candidate_embeddings in
      (w, st,
       search_walk (_messages st) candidate_indices similarities
         workspace_filter source_filter threshold max_results
         (sorted_local_indices similarities) [])
    end
  end.
End Search.

Definition get_messages_by_session (st : ConversationIndex) (sid : string)
    : list IndexedMessage :=
  sorted_by message_index
    (filter (fun m => session_id m = sid) (_messages st)).

(** [l[start:stop]] for integers of either sign. *)
Definition slice_index (n i : Z) : Z :=
  if i <? 0 then Z.max 0 (i + n) else Z.min i n.

Definition py_slice {A} (l : list A) (start stop : Z) : list A :=
  let n := Z.of_nat (length l) in
  let a := slice_index n start in
  let b := slice_index n stop in
  take (Z.to_nat (b - a)) (drop (Z.to_nat a) l).

Definition get_context_window (st : ConversationIndex) (message : IndexedMessage)
    (context_size : Z) : list IndexedMessage :=
  let session_messages := get_messages_by_session st (session_id message) in
  match list_find (fun m => uuid m = uuid message) session_messages with
  | None => [message]
  | Some (msg_idx, _) =>
    let start := Z.max 0 (Z.of_nat msg_idx - context_size) in
    let stop := Z.min (Z.of_nat (length session_messages))
                      (Z.of_nat msg_idx + context_size + 1) in
    py_slice session_messages start stop
  end.

(** ** query.py *)

Inductive exn := ValueError (message : string).

Record ContextMessage := {
  cm_role : string;
  cm_content : string;
  cm_timestamp : datetime;
  is_match : bool
}.

Record MatchedMessage := {
  mm_role : string;
  mm_content : string;
  mm_timestamp : datetime;
  mm_workspace : string;
  mm_session_id : string;
  mm_uuid : string;
  mm_source : Source
}.

Record SearchResult := {
  matched_message : MatchedMessage;
  score : Z;
  context : list ContextMessage
}.

Record SearchResponse := {
  results : list SearchResult;
  sr_query : string;
  total_matches : Z;
  sr_offset : Z;
  has_more : bool;
  excluded_sessions : nat;
  hint : option string
}.

(** [value.replace("Z", "+00:00")] *)
Fixpoint replace_Z (value : string) : string :=
  match value with
  | EmptyString => EmptyString
  | String c rest =>
    if Ascii.eqb c "Z" then ("+00:00" +:+ replace_Z rest)%string
    else String c (replace_Z rest)
  end.

Definition invalid_date_message (value : string) : string :=
  ("Invalid date format: " +:+ value +:+ ". Use ISO 8601 (e.g., 2025-01-15)")%string.

Definition parse_date_filter `{Capabilities} (value : option string)
    : exn + option datetime :=
  match value with
  | None => inr None
  | Some value =>
    match fromisoformat (replace_Z value) with
    | Some (dt, _) => inr (Some dt)
    | None => inl (ValueError (invalid_date_message value))
    end
  end.

Definition _truncate (content : string) (max_length : nat) : string :=
  if (String.length content <=? max_length)%nat then content
  else (String.substring 0 (max_length - 3) content +:+ "...")%string.

Abbreviation scored := (IndexedMessage * Z)%type.

(** [by_session[key].append(item)] on a dictionary that keeps the order in
    which its keys were first seen. *)
Fixpoint group_append (key : string) (item : scored)
    (by_session : list (string * list scored)) : list (string * list scored) :=
  match by_session with
  | [] => [(key, [item])]
  | (k, items) :: rest =>
    if String.eqb k key then (k, items ++ [item]) :: rest
    else (k, items) :: group_append key item rest
  end.

Definition group_by_session (results : list scored) : list (string * list scored) :=
  fold_left (fun by_session r => group_append (session_id r.1) r by_session)
            results [].

(** The body of the loop over one session's results, on the [kept] list. *)
Definition dedup_step (dedup_distance : Z) (kept : list scored) (item : scored)
    : list scored :=
  match last kept with
  | None => kept ++ [item]
  | Some (last_msg, last_score) =>
    if message_index item.1 - message_index last_msg <=? dedup_distance
    then
      if last_score <? item.2 then <[pred (length kept) := item]> kept else kept
    else kept ++ [item]
  end.

Definition dedup_session (dedup_distance : Z) (session_results : list scored)
    : list scored :=
  fold_left (dedup_step dedup_distance)
            (sorted_by (fun x => message_index x.1) session_results) [].

Definition _deduplicate_results (results : list scored) (context_size : Z)
    : list scored :=
  match results with
  | [] => []
  | _ =>
    let by_session := group_by_session results in
    let dedup_distance := 2 * context_size in
    let deduplicated :=
      flat_map (fun g => dedup_session dedup_distance g.2) by_session in
    sorted_by_reverse snd deduplicated
  end.

Definition _generate_hint (total offset count max_results : Z) (has_more : bool)
    : string :=
  if total =? 0 then "No matches found. Try different search terms."%string
  else
    let start := offset + 1 in
    let stop := offset + count in
    if has_more then
      ("Showing " +:+ pretty start +:+ "-" +:+ pretty stop +:+ " of " +:+ pretty total
       +:+ ". Use offset: " +:+ pretty (offset + max_results) +:+ " for more.")%string
    else if start =? 1 then
      ("Showing all " +:+ pretty total +:+ " matches.")%string
    else
      ("Showing " +:+ pretty start +:+ "-" +:+ pretty stop +:+ " of " +:+ pretty total
       +:+ " (final page).")%string.

(** [x or default] on an optional number. *)
Definition or_default (x : option Z) (d : Z) : Z :=
  match x with
  | None => d
  | Some v => if v =? 0 then d else v
  end.

Definition make_result `{Capabilities} (st : ConversationIndex) (context_size : Z)
    (r : scored) : SearchResult :=
  let '(msg, score) := r in
  let context_window := get_context_window st msg context_size in
  {| matched_message :=
       {| mm_role := role msg;
          mm_content := _truncate (searchable_text msg) 2000;
          mm_timestamp := timestamp msg;
          mm_workspace := workspace msg;
          mm_session_id := session_id msg;
          mm_uuid := uuid msg;
          mm_source := source msg |};
     score := round score 4;
     context :=
       map (fun m =>
              {| cm_role := role m;
                 cm_content := _truncate (searchable_text m) 2000;
                 cm_timestamp := timestamp m;
                 is_match := bool_decide (uuid m = uuid msg) |})
           context_window |}.

Definition search_conversations `{Capabilities} (query : string)
    (workspace_filter : option string) (source_filter : option Source)
    (after before : option string)
    (context_size threshold max_results : option Z) (offset : Z)
    (w : World) (st : ConversationIndex)
    : World * ConversationIndex * (exn + SearchResponse) :=
  let defaults := search_defaults (config w) in
  let context_size := or_default context_size (default_context_window defaults) in
  let threshold := or_default threshold (default_threshold defaults) in
  let max_results := or_default max_results (default_max_results defaults) in
  match parse_date_filter after with
  | inl e => (w, st, inl e)
  | inr after_dt =>
    match parse_date_filter before with
    | inl e => (w, st, inl e)
    | inr before_dt =>
      let '(w, st, raw_results) :=
        search query workspace_filter source_filter threshold
               ((offset + max_results) * 3) after_dt before_dt w st in
      match raw_results with
      | [] =>
        (w, st,
         inr {| results := [];
                sr_query := query;
                total_matches := 0;
                sr_offset := 0;
                has_more := false;
                excluded_sessions := _excluded_session_count st;
                hint := Some (_generate_hint 0 0 0 max_results false) |})
      | _ =>
        let deduplicated := _deduplicate_results raw_results context_size in
        let total := Z.of_nat (length deduplicated) in
        let paginated := py_slice deduplicated offset (offset + max_results) in
        let results := map (make_result st context_size) paginated in
        let has_more := offset + Z.of_nat (length results) <? total in
        (w, st,
         inr {| results := results;
                sr_query := query;
                total_matches := total;
                sr_offset := offset;
                has_more := has_more;
                excluded_sessions := _excluded_session_count st;
                hint := Some (_generate_hint total offset (Z.of_nat (length results))
                                             max_results has_more) |})
      end
    end
  end.

(** ** Test doubles

    A collision-free hash, a two-component model whose similarity grows
    with the lengths of the texts, and a parser that accepts a run of
    digits (a naive datetime) optionally followed by [+00:00]. *)

Fixpoint toy_digits (s : string) (acc : Z) : option (Z * string) :=
  match s with
  | EmptyString => Some (acc, EmptyString)
  | String c rest =>
    let n := Z.of_nat (nat_of_ascii c) in
    if (48 <=? n) && (n <=? 57) then toy_digits rest (10 * acc + (n - 48))
    else Some (acc, s)
  end.

Definition toy_fromisoformat (s : string) : option (datetime * bool) :=
  match s with
  | EmptyString => None
  | _ =>
    match toy_digits s 0 with
    | Some (n, EmptyString) => Some (n, false)
    | Some (n, suffix) =>
      if String.eqb suffix "+00:00" then
        if String.eqb s suffix then None else Some (n, true)
      else None
    | None => None
    end
  end.

(** The same double over a sort that swaps equal elements. *)
Definition toy_swapping_ties : Capabilities :=
  {| md5_hexdigest := fun s => s;
     model_encode := fun s => [10 * Z.of_nat (String.length s); 0];
     float_str := pretty;
     fromisoformat := toy_fromisoformat;
     round := fun x _ => x;
     round_mono := fun _ _ _ Hxy => Hxy;
     argsort_ties := fun _ i => - Z.of_nat i |}.

Definition toy_capabilities : Capabilities :=
  {| md5_hexdigest := fun s => s;
     model_encode := fun s => [10 * Z.of_nat (String.length s); 0];
     float_str := pretty;
     fromisoformat := toy_fromisoformat;
     round := fun x _ => x;
     round_mono := fun _ _ _ Hxy => Hxy;
     argsort_ties := fun _ _ => 0 |}.

Definition toy_session (sid : string) (count : Z) (mtime : Z) : SessionInfo :=
  {| si_session_id := sid; si_workspace := "/work"; message_count := count;
     created := None; modified := Some mtime; si_source := CLI |}.

Definition toy_message (sid : string) (idx : Z) (ts : Z) (text : string)
    : IndexedMessage :=
  {| uuid := (sid +:+ "#" +:+ pretty idx)%string; session_id := sid;
     workspace := "/work"; timestamp := ts; role := "user";
     searchable_text := text; message_index := idx; source := CLI |}.

(** A world with CLI sessions only, each holding the messages listed
    under its id. *)
Definition toy_world (sessions : list SessionInfo) (msgs : list IndexedMessage)
    : World :=
  {| config := Config_default;
     cli_sessions := sessions;
     ide_sessions := [];
     cli_session_messages :=
       fun s => filter (fun m => session_id m = si_session_id s) msgs;
     ide_session_messages := fun _ => [];
     memory_limit := 0;
     cache_file := ∅;
     cache_writable := true;
     events := [] |}.




(** Three messages of one session, at the timestamps 5, 10 and 15. *)
Definition toy_corpus : World :=
  toy_world [toy_session "s" 3 15]
            [toy_message "s" 0 5 "aaaaaaaaaaaaaaaaaaaaaaaaaaaaaa";
             toy_message "s" 1 10 "bbbbbbbbbbbbbbbbbbbbbbbbbbbbbbbbbbbbbbbb";
             toy_message "s" 2 15 "cccccccccc"].

(** How often the model was called with a batch holding [text]. *)
Definition batch_calls_with (text : string) (evs : list event) : nat :=
  length (List.filter (fun e => match e with
                                | EncodeBatch texts => bool_decide (text ∈ texts)
                                | _ => false
                                end) evs).

Definition count_builds (evs : list event) : nat :=
  length (List.filter (fun e => match e with BuildIndex => true | _ => false end) evs).

(** All the texts handed to the model in batches, in order. *)
Definition embedded_texts (evs : list event) : list string :=
  flat_map (fun e => match e with EncodeBatch texts => texts | _ => [] end) evs.

(** ** Reference definitions for the memory budgeter *)

Definition total_estimated (sessions : list SessionInfo) : Z :=
  foldr Z.add 0 (map estimated_bytes sessions).

(** The greedy choice in words: walking newest first with [used] bytes
    taken, a session is admitted exactly when it still fits, and the walk
    goes on either way. *)
Fixpoint greedy_split (limit used : Z) (sessions : list SessionInfo)
    : list SessionInfo * list SessionInfo :=
  match sessions with
  | [] => ([], [])
  | s :: rest =>
    if used + estimated_bytes s <=? limit
    then let '(sel, exc) := greedy_split limit (used + estimated_bytes s) rest in
         (s :: sel, exc)
    else let '(sel, exc) := greedy_split limit used rest in
         (sel, s :: exc)
  end.

(** The longest newest-first prefix that fits: the walk that stops at the
    first session that does not fit. *)
Fixpoint prefix_within (limit used : Z) (sessions : list SessionInfo)
    : list SessionInfo :=
  match sessions with
  | [] => []
  | s :: rest =>
    if used + estimated_bytes s <=? limit
    then s :: prefix_within limit (used + estimated_bytes s) rest
    else []
  end.

(** A small session, a large one, and an older small one. *)
Definition toy_sessions : list SessionInfo :=
  [toy_session "new" 1 30; toy_session "big" 100 20; toy_session "old" 1 10].

(** ** Reference definition for the pagination hint

    The four cases as the design document words them. *)

Definition documented_hint (total offset count max_results : Z) (has_more : bool)
    : string :=
  let start := offset + 1 in
  let stop := offset + count in
  if total =? 0 then "No matches found. Try different search terms."%string
  else if has_more then
    ("Showing " +:+ pretty start +:+ "-" +:+ pretty stop +:+ " of " +:+ pretty total
     +:+ ". Use offset: " +:+ pretty (offset + max_results) +:+ " for more.")%string
  else if start =? 1 then
    ("Showing " +:+ pretty start +:+ "-" +:+ pretty stop +:+ " of " +:+ pretty total
     +:+ ".")%string
  else
    ("Showing " +:+ pretty start +:+ "-" +:+ pretty stop +:+ " of " +:+ pretty total
     +:+ " (final page).")%string.

(** ** Reference definition for deduplication

    The merge in words: with [anchor] the entry kept last, a candidate
    within the distance merges into it, the higher score staying as the new
    anchor; a candidate further away closes the anchor and opens an entry
    of its own. *)

Fixpoint merge_from (dedup_distance : Z) (anchor : scored) (rest : list scored)
    : list scored :=
  match rest with
  | [] => [anchor]
  | c :: rest' =>
    if message_index c.1 - message_index anchor.1 <=? dedup_distance
    then merge_from dedup_distance (if anchor.2 <? c.2 then c else anchor) rest'
    else anchor :: merge_from dedup_distance c rest'
  end.

Definition merge_walk (dedup_distance : Z) (l : list scored) : list scored :=
  match l with
  | [] => []
  | x :: rest => merge_from dedup_distance x rest
  end.

(** [g] groups the results [rs] by session: one entry per session id that
    occurs, holding that session's results in their order in [rs]. *)
Definition grouped (rs : list scored) (g : list (string * list scored)) : Prop :=
  NoDup g.*1 ∧
  (∀ r, r ∈ rs -> session_id r.1 ∈ g.*1) ∧
  (∀ k items, (k, items) ∈ g -> items = filter (fun r => session_id r.1 = k) rs).

(** ** Reference definitions for the date filter and the index *)



(** What the session listing of a world depends on. *)
Definition world_sources (w : World) : Config * list SessionInfo * list SessionInfo :=
  (config w, cli_sessions w, ide_sessions w).

(** ** Reference definitions for the embedding cache *)

(** The texts of the messages whose content hash the cache does not hold,
    one per message, in message order. *)
Definition uncached_texts `{Capabilities} (cache : gmap string vec)
    (messages : list IndexedMessage) : list string :=
  searchable_text <$>
    filter (fun m => cache !! _compute_text_hash (searchable_text m) = None) messages.

(** One session of 101 messages that all say the same. *)
Definition toy_repeats : World :=
  toy_world [toy_session "s" 101 1]
            (map (fun i => toy_message "s" (Z.of_nat i) (Z.of_nat i) "same")
                 (seq 0 101)).

(** Two messages of equal similarity to any query. *)
Definition toy_ties : World :=
  toy_world [toy_session "s" 2 1]
            [toy_message "s" 0 1 "aaaaaaaaaaaaaaaaaaaaaaaaaaaaaa";
             toy_message "s" 1 2 "bbbbbbbbbbbbbbbbbbbbbbbbbbbbbb"].

(** ** Reference definitions for the rows of the index *)

(** The vector a build stores for a message: the cached one when the hash
    of its text is in the cache the build loaded, the model's otherwise. *)
Definition expected_row `{Capabilities} (cache : gmap string vec)
    (m : IndexedMessage) : vec :=
  match cache !! _compute_text_hash (searchable_text m) with
  | Some v => v
  | None => model_encode (searchable_text m)
  end.

(** Row [k] of [emb] is the one expected for message [k] of [msgs]. *)
Definition row_ready `{Capabilities} (cache : gmap string vec)
    (msgs : list IndexedMessage) (k : nat) (emb : list vec) : Prop :=
  ∀ m, msgs !! k = Some m -> emb !! k = Some (expected_row cache m).

(** Text [t] is the uncached text of message [idx]. *)
Definition queued `{Capabilities} (cache : gmap string vec)
    (msgs : list IndexedMessage) (t : string) (idx : nat) : Prop :=
  ∃ m, msgs !! idx = Some m ∧ searchable_text m = t ∧
       cache !! _compute_text_hash t = None.

(** What a build reads of the world: the configuration, the sessions and
    messages of the two sources, the memory limit and whether the cache
    file can be written. *)
Definition world_inputs (w : World) :=
  (config w, cli_sessions w, ide_sessions w,
   cli_session_messages w, ide_session_messages w,
   memory_limit w, cache_writable w).

(** The messages a build loads: those of the sessions within the budget. *)
Definition indexed_messages (w : World) : list IndexedMessage :=
  load_messages_for_sessions w
    (select_sessions_within_limit (list_all_sessions w) (memory_limit w)).1.

(** Every entry of [new_cache] is the model's vector of an uncached
    message text, under the hash of that text. *)
Definition fresh_entries `{Capabilities} (cache : gmap string vec)
    (msgs : list IndexedMessage) (new_cache : gmap string vec) : Prop :=
  ∀ h v, new_cache !! h = Some v ->
    ∃ m, m ∈ msgs ∧ _compute_text_hash (searchable_text m) = h ∧
         cache !! h = None ∧ v = model_encode (searchable_text m).

(** * Properties *)

(** ** The stable sort *)

Section StableSortFacts.
Context {A : Type} (le : A -> A -> bool).

Lemma insert_sorted_perm x l : insert_sorted le x l ≡ₚ x :: l.
Proof.
  induction l as [|y l IH]; simpl; [done|].
  destruct (le x y); [done|].
  rewrite IH. apply Permutation_swap.
Qed.

Lemma stable_sort_perm l : stable_sort le l ≡ₚ l.
Proof.
  induction l as [|x l IH]; simpl; [done|].
  rewrite insert_sorted_perm. by rewrite IH.
Qed.

Lemma stable_sort_length l : length (stable_sort le l) = length l.
Proof. by rewrite stable_sort_perm. Qed.

(** Insertion never reorders the members of a class of mutually
    [le]-related elements: that is what makes the sort stable. *)
Lemma insert_sorted_filter (P : A -> Prop) `{!∀ x, Decision (P x)} x l :
  (∀ a b, P a -> P b -> le a b = true) ->
  filter P (insert_sorted le x l) = filter P (x :: l).
Proof.
  intros HP. induction l as [|y l IH]; simpl; [done|].
  destruct (le x y) eqn:Hxy; [done|].
  rewrite filter_cons, IH, !filter_cons.
  destruct (decide (P y)) as [Hy|Hy], (decide (P x)) as [Hx|Hx]; try done.
  rewrite (HP x y Hx Hy) in Hxy. done.
Qed.

Lemma stable_sort_filter (P : A -> Prop) `{!∀ x, Decision (P x)} l :
  (∀ a b, P a -> P b -> le a b = true) ->
  filter P (stable_sort le l) = filter P l.
Proof.
  intros HP. induction l as [|x l IH]; simpl; [done|].
  rewrite insert_sorted_filter by done.
  by rewrite !filter_cons, IH.
Qed.

Hypothesis le_total : ∀ a b, le a b = false -> le b a = true.
Hypothesis le_trans : ∀ a b c, le a b = true -> le b c = true -> le a c = true.

Lemma insert_sorted_sorted x l :
  Sorted (fun a b => le a b = true) l ->
  Sorted (fun a b => le a b = true) (insert_sorted le x l).
Proof.
  induction 1 as [|y l Hl IH Hhd]; simpl.
  - repeat constructor.
  - destruct (le x y) eqn:Hxy.
    + constructor; [by constructor|by constructor].
    + constructor; [done|].
      destruct Hhd as [|z l Hyz]; simpl.
      * constructor. by apply le_total.
      * destruct (le x z); constructor; [by apply le_total|done].
Qed.

Lemma stable_sort_sorted l :
  StronglySorted (fun a b => le a b = true) (stable_sort le l).
Proof.
  apply Sorted_StronglySorted.
  - intros a b c. apply le_trans.
  - induction l as [|x l IH]; simpl; [constructor|].
    by apply insert_sorted_sorted.
Qed.
End StableSortFacts.

Lemma StronglySorted_weaken {A} (R R' : A -> A -> Prop) l :
  (∀ a b, R a b -> R' a b) -> StronglySorted R l -> StronglySorted R' l.
Proof.
  intros HR. induction 1 as [|x l Hl IH Hx]; constructor; [done|].
  eapply Forall_impl; [exact Hx|]. intros y. apply HR.
Qed.

Lemma sorted_by_sorted {A} (key : A -> Z) l :
  StronglySorted (fun a b => key a <= key b) (sorted_by key l).
Proof.
  apply (StronglySorted_weaken (fun a b => (key a <=? key b) = true)).
  { intros a b Hab. lia. }
  apply (stable_sort_sorted (fun a b => key a <=? key b)); intros; lia.
Qed.

Lemma sorted_by_reverse_sorted {A} (key : A -> Z) l :
  StronglySorted (fun a b => key b <= key a) (sorted_by_reverse key l).
Proof.
  apply (StronglySorted_weaken (fun a b => (key b <=? key a) = true)).
  { intros a b Hab. lia. }
  apply (stable_sort_sorted (fun a b => key b <=? key a)); intros; lia.
Qed.

Lemma sorted_by_reverse_perm {A} (key : A -> Z) l : sorted_by_reverse key l ≡ₚ l.
Proof. apply stable_sort_perm. Qed.

Lemma sorted_by_perm {A} (key : A -> Z) l : sorted_by key l ≡ₚ l.
Proof. apply stable_sort_perm. Qed.

(** ** The memory budgeter *)

Lemma total_estimated_app l1 l2 :
  total_estimated (l1 ++ l2) = total_estimated l1 + total_estimated l2.
Proof.
  unfold total_estimated. induction l1 as [|x l1 IH]; simpl; [done|].
  rewrite IH. lia.
Qed.

Lemma select_loop_greedy limit l sel exc cur :
  fold_left (select_step limit) l (sel, exc, cur) =
  (sel ++ (greedy_split limit cur l).1, exc ++ (greedy_split limit cur l).2,
   cur + total_estimated (greedy_split limit cur l).1).
Proof.
  revert sel exc cur. induction l as [|s l IH]; intros sel exc cur; simpl.
  - rewrite !app_nil_r. f_equal. unfold total_estimated. simpl. lia.
  - destruct (cur + estimated_bytes s <=? limit) eqn:Hfit.
    + rewrite IH. destruct (greedy_split limit (cur + estimated_bytes s) l) as [a b].
      simpl. rewrite <- !app_assoc. simpl. f_equal.
      unfold total_estimated. simpl. fold (total_estimated a). lia.
    + rewrite IH. destruct (greedy_split limit cur l) as [a b].
      simpl. by rewrite <- !app_assoc.
Qed.

Lemma greedy_split_perm limit cur l :
  (greedy_split limit cur l).1 ++ (greedy_split limit cur l).2 ≡ₚ l.
Proof.
  revert cur. induction l as [|s l IH]; intros cur; simpl; [done|].
  destruct (cur + estimated_bytes s <=? limit).
  - specialize (IH (cur + estimated_bytes s)).
    destruct (greedy_split limit (cur + estimated_bytes s) l) as [a b]. simpl in *.
    by rewrite IH.
  - specialize (IH cur). destruct (greedy_split limit cur l) as [a b]. simpl in *.
    rewrite <- Permutation_middle. by rewrite IH.
Qed.

Lemma greedy_split_sublist limit cur l :
  sublist (greedy_split limit cur l).1 l ∧ sublist (greedy_split limit cur l).2 l.
Proof.
  revert cur. induction l as [|s l IH]; intros cur; simpl; [by split|].
  destruct (cur + estimated_bytes s <=? limit).
  - destruct (IH (cur + estimated_bytes s)) as [Ha Hb].
    destruct (greedy_split limit (cur + estimated_bytes s) l) as [a b]. simpl in *.
    split; [by apply sublist_skip|by apply sublist_cons].
  - destruct (IH cur) as [Ha Hb].
    destruct (greedy_split limit cur l) as [a b]. simpl in *.
    split; [by apply sublist_cons|by apply sublist_skip].
Qed.

Lemma greedy_split_within limit cur l :
  cur <= limit -> cur + total_estimated (greedy_split limit cur l).1 <= limit.
Proof.
  revert cur. induction l as [|s l IH]; intros cur Hcur; simpl.
  - unfold total_estimated. simpl. lia.
  - destruct (cur + estimated_bytes s <=? limit) eqn:Hfit.
    + apply Z.leb_le in Hfit. specialize (IH _ Hfit).
      destruct (greedy_split limit (cur + estimated_bytes s) l) as [a b]. simpl in *.
      unfold total_estimated in *. simpl. lia.
    + specialize (IH _ Hcur). by destruct (greedy_split limit cur l) as [a b].
Qed.

(** A session that does not fit when its turn comes is excluded, and the
    walk over the older sessions goes on from the same running total. *)
Lemma greedy_split_continues limit cur s rest :
  limit < cur + estimated_bytes s ->
  greedy_split limit cur (s :: rest) =
  ((greedy_split limit cur rest).1, s :: (greedy_split limit cur rest).2).
Proof.
  intros Hbig. simpl. destruct (cur + estimated_bytes s <=? limit) eqn:Hfit.
  - apply Z.leb_le in Hfit. lia.
  - by destruct (greedy_split limit cur rest).
Qed.

Lemma select_sessions_within_limit_eq sessions limit :
  0 < limit ->
  select_sessions_within_limit sessions limit =
  greedy_split limit 0 (sorted_by_reverse timestamp_fallback sessions).
Proof.
  intros Hpos. unfold select_sessions_within_limit.
  destruct (limit <=? 0) eqn:Hle; [apply Z.leb_le in Hle; lia|].
  rewrite select_loop_greedy. simpl.
  by destruct (greedy_split limit 0 (sorted_by_reverse timestamp_fallback sessions)).
Qed.

(** C4, as amended: under a positive limit the selection is the greedy
    newest-first choice, not a prefix.  The sessions are walked newest
    first; each is admitted exactly when it fits on top of those admitted
    before it, and a session that does not fit is excluded without ending
    the walk.  The estimated bytes of the selection stay within the limit,
    selected and excluded are sub-sequences of the newest-first order and
    together a rearrangement of the input.  Under a limit of zero or less
    every session is selected, in the order given. *)
Theorem select_sessions_within_limit_greedy (sessions : list SessionInfo) (limit : Z) :
  let newest_first := sorted_by_reverse timestamp_fallback sessions in
  let selected := (select_sessions_within_limit sessions limit).1 in
  let excluded := (select_sessions_within_limit sessions limit).2 in
  (0 < limit ->
     (selected, excluded) = greedy_split limit 0 newest_first ∧
     total_estimated selected <= limit ∧
     selected ++ excluded ≡ₚ sessions ∧
     sublist selected newest_first ∧ sublist excluded newest_first ∧
     StronglySorted (fun a b => timestamp_fallback b <= timestamp_fallback a)
                    newest_first ∧
     (∀ used s older, limit < used + estimated_bytes s ->
        greedy_split limit used (s :: older) =
        ((greedy_split limit used older).1, s :: (greedy_split limit used older).2))) ∧
  (limit <= 0 -> selected = sessions ∧ excluded = []).
Proof.
  intros newest_first selected excluded. split.
  - intros Hpos. subst selected excluded.
    rewrite select_sessions_within_limit_eq by done. fold newest_first.
    split; [by destruct (greedy_split limit 0 newest_first)|].
    split; [pose proof (greedy_split_within limit 0 newest_first); lia|].
    split; [rewrite greedy_split_perm; apply sorted_by_reverse_perm|].
    split; [apply greedy_split_sublist|].
    split; [apply greedy_split_sublist|].
    split; [apply sorted_by_reverse_sorted|].
    intros used s older. apply greedy_split_continues.
  - intros Hle. subst selected excluded. unfold select_sessions_within_limit.
    destruct (limit <=? 0) eqn:E; [done|]. apply Z.leb_gt in E. lia.
Qed.

(** C4 at three sessions under a limit of two small ones: the large
    session in the middle is passed over and the older one still admitted. *)
Lemma select_sessions_within_limit_greedy_witness :
  0 < 5200 ∧
  select_sessions_within_limit toy_sessions 5200 =
    ([toy_session "new" 1 30; toy_session "old" 1 10], [toy_session "big" 100 20]) ∧
  total_estimated (select_sessions_within_limit toy_sessions 5200).1 <= 5200.
Proof.
  pose proof (select_sessions_within_limit_greedy toy_sessions 5200) as [Hpos _].
  split; [lia|]. split; [reflexivity|].
  apply Hpos. lia.
Defined.

(** C4 as stated fails: the selection is not the newest-first prefix that
    fits, and not a prefix of the newest-first order at all. *)
Lemma select_sessions_not_prefix :
  (select_sessions_within_limit toy_sessions 5200).1 ≠
    prefix_within 5200 0 (sorted_by_reverse timestamp_fallback toy_sessions) ∧
  ¬ (select_sessions_within_limit toy_sessions 5200).1
      `prefix_of` sorted_by_reverse timestamp_fallback toy_sessions.
Proof.
  split.
  - vm_compute. discriminate.
  - intros [k Hk]. vm_compute in Hk. discriminate.
Qed.

(** ** Pagination and the hint *)

Lemma py_slice_length {A} (l : list A) (a b : Z) :
  0 <= a -> a <= b -> b <= Z.of_nat (length l) ->
  Z.of_nat (length (py_slice l a b)) = b - a.
Proof.
  intros Ha Hab Hb. unfold py_slice, slice_index.
  destruct (a <? 0) eqn:Ea; [apply Z.ltb_lt in Ea; lia|].
  destruct (b <? 0) eqn:Eb; [apply Z.ltb_lt in Eb; lia|].
  rewrite length_take, length_drop. lia.
Qed.

(** C5, as amended: every response carries the hint of its own counts.
    With no match it reads "No matches found. Try different search terms.";
    a last page that starts at 1 reads "Showing all {total} matches."; a
    last page that starts later reads
    "Showing {start}-{end} of {total} (final page)."; and when more remain
    it reads "Showing {start}-{end} of {total}. Use offset: {offset+maxResults}
    for more.", where start = offset+1, end = offset+returned and
    hasMore = (offset + returned < total).  With 25 matches, offset 10 and
    a page of 10, ten are returned, more remain and the hint is
    "Showing 11-20 of 25. Use offset: 20 for more.". *)
Theorem search_response_hint `{Capabilities} (query : string)
    (workspace_filter : option string) (source_filter : option Source)
    (after before : option string) (context_size threshold max_results : option Z)
    (offset : Z) (w : World) (st : ConversationIndex) (resp : SearchResponse) :
  (search_conversations query workspace_filter source_filter after before
     context_size threshold max_results offset w st).2 = inr resp ->
  let total := total_matches resp in
  let returned := Z.of_nat (length (results resp)) in
  let start := sr_offset resp + 1 in
  let stop := sr_offset resp + returned in
  let page := or_default max_results (default_max_results (search_defaults (config w))) in
  has_more resp = (sr_offset resp + returned <? total) ∧
  (total = 0 ->
     hint resp = Some "No matches found. Try different search terms."%string) ∧
  (total ≠ 0 -> has_more resp = false -> start = 1 ->
     hint resp = Some ("Showing all " +:+ pretty total +:+ " matches.")%string) ∧
  (total ≠ 0 -> has_more resp = false -> start ≠ 1 ->
     hint resp = Some ("Showing " +:+ pretty start +:+ "-" +:+ pretty stop +:+ " of "
                       +:+ pretty total +:+ " (final page).")%string) ∧
  (total ≠ 0 -> has_more resp = true ->
     hint resp = Some ("Showing " +:+ pretty start +:+ "-" +:+ pretty stop +:+ " of "
                       +:+ pretty total +:+ ". Use offset: "
                       +:+ pretty (sr_offset resp + page) +:+ " for more.")%string) ∧
  (∀ deduplicated : list scored, length deduplicated = 25%nat ->
     let paginated := py_slice deduplicated 10 (10 + 10) in
     length paginated = 10%nat ∧
     (10 + Z.of_nat (length paginated) <? 25) = true ∧
     _generate_hint 25 10 (Z.of_nat (length paginated)) 10 true =
       "Showing 11-20 of 25. Use offset: 20 for more."%string).
Proof.
  intros Hresp. cbv zeta.
  assert (Hgen : ∀ total off count mr hm,
    (total = 0 -> _generate_hint total off count mr hm =
       "No matches found. Try different search terms."%string) ∧
    (total ≠ 0 -> hm = false -> off + 1 = 1 -> _generate_hint total off count mr hm =
       ("Showing all " +:+ pretty total +:+ " matches.")%string) ∧
    (total ≠ 0 -> hm = false -> off + 1 ≠ 1 -> _generate_hint total off count mr hm =
       ("Showing " +:+ pretty (off + 1) +:+ "-" +:+ pretty (off + count) +:+ " of "
        +:+ pretty total +:+ " (final page).")%string) ∧
    (total ≠ 0 -> hm = true -> _generate_hint total off count mr hm =
       ("Showing " +:+ pretty (off + 1) +:+ "-" +:+ pretty (off + count) +:+ " of "
        +:+ pretty total +:+ ". Use offset: " +:+ pretty (off + mr)
        +:+ " for more.")%string)).
  { intros total off count mr hm. unfold _generate_hint.
    repeat split.
    - intros ->. done.
    - intros Ht -> Hs. apply Z.eqb_neq in Ht. rewrite Ht.
      apply Z.eqb_eq in Hs. by rewrite Hs.
    - intros Ht -> Hs. apply Z.eqb_neq in Ht. rewrite Ht.
      apply Z.eqb_neq in Hs. by rewrite Hs.
    - intros Ht ->. apply Z.eqb_neq in Ht. by rewrite Ht. }
  assert (Hpage : ∀ deduplicated : list scored, length deduplicated = 25%nat ->
     length (py_slice deduplicated 10 (10 + 10)) = 10%nat).
  { intros l Hl. pose proof (py_slice_length l 10 20) as Hp. rewrite Hl in Hp.
    change (10 + 10) with 20. lia. }
  unfold search_conversations in Hresp.
  destruct (parse_date_filter after) as [e|after_dt]; [done|].
  destruct (parse_date_filter before) as [e|before_dt]; [done|].
  destruct (search _ _ _ _ _ _ _ _ _) as [[w' st'] raw].
  destruct raw as [|r raw]; simpl in Hresp; inversion Hresp; subst resp; clear Hresp;
    simpl.
  - split; [done|]. split; [done|]. split; [done|]. split; [done|]. split; [done|].
    intros l Hl. rewrite (Hpage l Hl). done.
  - match goal with |- context [_generate_hint ?t ?o ?c ?m ?h] =>
      destruct (Hgen t o c m h) as (H0 & H1 & H2 & H3) end.
    split; [done|]. split; [intros E; f_equal; by apply H0|].
    split; [intros ? ? ?; f_equal; by apply H1|].
    split; [intros ? ? ?; f_equal; by apply H2|].
    split; [intros ? ?; f_equal; by apply H3|].
    intros l Hl. rewrite (Hpage l Hl). done.
Qed.

(** C5 on the three-message corpus: one match after deduplication. *)
Lemma search_response_hint_witness :
  ∃ resp,
    (search_conversations (H := toy_capabilities) "q" None None None None
       None None None 0 toy_corpus ConversationIndex_init).2 = inr resp ∧
    total_matches resp = 1 ∧
    hint resp = Some "Showing all 1 matches."%string.
Proof.
  eexists. split; [vm_compute; reflexivity|]. split; [reflexivity|].
  eapply (search_response_hint (H := toy_capabilities) "q" None None None None
            None None None 0 toy_corpus ConversationIndex_init).
  - vm_compute. reflexivity.
  - vm_compute. discriminate.
  - reflexivity.
  - reflexivity.
Defined.

(** C5 as stated fails on a single full page: the code says
    "Showing all 5 matches.", the documented text is "Showing 1-5 of 5.". *)
Lemma generate_hint_first_page_differs :
  _generate_hint 5 0 5 10 false = "Showing all 5 matches."%string ∧
  documented_hint 5 0 5 10 false = "Showing 1-5 of 5."%string ∧
  _generate_hint 5 0 5 10 false ≠ documented_hint 5 0 5 10 false.
Proof. split; [reflexivity|]. split; [reflexivity|]. vm_compute. discriminate. Qed.

(** ** Deduplication *)

Lemma dedup_step_nil d c : dedup_step d [] c = [c].
Proof. done. Qed.

Lemma dedup_step_snoc d kept l c :
  dedup_step d (kept ++ [l]) c =
  if message_index c.1 - message_index l.1 <=? d
  then kept ++ [if l.2 <? c.2 then c else l]
  else kept ++ [l; c].
Proof.
  unfold dedup_step. rewrite last_snoc. destruct l as [lm ls]. simpl.
  destruct (message_index c.1 - message_index lm <=? d).
  - destruct (ls <? c.2); [|done].
    rewrite length_app. simpl.
    replace (pred (length kept + 1)) with (length kept + 0)%nat by lia.
    by rewrite insert_app_r.
  - by rewrite <- app_assoc.
Qed.

Lemma dedup_loop_merge d l kept a :
  fold_left (dedup_step d) l (kept ++ [a]) = kept ++ merge_from d a l.
Proof.
  revert kept a. induction l as [|c l IH]; intros kept a; simpl; [done|].
  rewrite dedup_step_snoc.
  destruct (message_index c.1 - message_index a.1 <=? d).
  - apply IH.
  - replace (kept ++ [a; c]) with ((kept ++ [a]) ++ [c]) by by rewrite <- app_assoc.
    rewrite IH. by rewrite <- app_assoc.
Qed.

Lemma dedup_walk_merge d l : fold_left (dedup_step d) l [] = merge_walk d l.
Proof. destruct l as [|x l]; [done|]. apply (dedup_loop_merge d l [] x). Qed.

Lemma dedup_session_merge d g :
  dedup_session d g = merge_walk d (sorted_by (fun x => message_index x.1) g).
Proof. apply dedup_walk_merge. Qed.

Lemma filter_none {A} (P : A -> Prop) `{!∀ x, Decision (P x)} (l : list A) :
  (∀ x, x ∈ l -> ¬ P x) -> filter P l = [].
Proof.
  induction l as [|x l IH]; intros Hl; [done|].
  rewrite filter_cons_False by (apply Hl; by left).
  apply IH. intros y Hy. apply Hl. by right.
Qed.

Lemma group_append_keys key item g :
  (group_append key item g).*1 =
  if decide (key ∈ g.*1) then g.*1 else g.*1 ++ [key].
Proof.
  induction g as [|[k items] g IH]; cbn [group_append].
  - done.
  - destruct (String.eqb_spec k key) as [->|Hne]; rewrite !fmap_cons; cbn [fst].
    + rewrite decide_True by (by left). done.
    + rewrite IH. destruct (decide (key ∈ g.*1)) as [Hin|Hn].
      * rewrite decide_True by (by right). done.
      * rewrite decide_False; [done|].
        intros Hin'. apply elem_of_cons in Hin' as [->|?]; done.
Qed.

Lemma group_append_elem key item g k items' :
  NoDup g.*1 ->
  (k, items') ∈ group_append key item g ->
  (k ≠ key ∧ (k, items') ∈ g) ∨
  (k = key ∧ ((∃ items, (key, items) ∈ g ∧ items' = items ++ [item]) ∨
              (¬ key ∈ g.*1 ∧ items' = [item]))).
Proof.
  induction g as [|[k0 items0] g IH]; simpl; intros Hnd Hin.
  - apply list_elem_of_singleton in Hin. inversion Hin; subst.
    right. split; [done|]. right. split; [apply not_elem_of_nil|done].
  - apply NoDup_cons in Hnd as [Hk0 Hnd].
    destruct (String.eqb_spec k0 key) as [->|Hne].
    + apply elem_of_cons in Hin as [Heq|Hin].
      * inversion Heq; subst. right. split; [done|]. left.
        exists items0. split; [by left|done].
      * left. split; [|by right].
        intros ->. apply Hk0. apply list_elem_of_fmap. by exists (key, items').
    + apply elem_of_cons in Hin as [Heq|Hin].
      * inversion Heq; subst. left. split; [done|by left].
      * destruct (IH Hnd Hin) as [[Hk Hg]|[-> [[items [Hg ->]]|[Hn ->]]]].
        -- left. split; [done|by right].
        -- right. split; [done|]. left. exists items. split; [by right|done].
        -- right. split; [done|]. right. split; [|done].
           intros Hin'. apply elem_of_cons in Hin' as [->|?]; done.
Qed.

Lemma group_append_grouped rs g r :
  grouped rs g -> grouped (rs ++ [r]) (group_append (session_id r.1) r g).
Proof.
  intros (Hnd & Hall & Hg). split; [|split].
  - rewrite group_append_keys. destruct (decide (session_id r.1 ∈ g.*1)); [done|].
    apply NoDup_app. split; [done|]. split; [|apply NoDup_singleton].
    intros x Hx Hx'. apply list_elem_of_singleton in Hx'. by subst.
  - intros r' Hr'. rewrite group_append_keys.
    apply elem_of_app in Hr' as [Hr'|Hr'].
    + specialize (Hall _ Hr').
      destruct (decide (session_id r.1 ∈ g.*1)); [done|].
      apply elem_of_app. by left.
    + apply list_elem_of_singleton in Hr'. subst r'.
      destruct (decide (session_id r.1 ∈ g.*1)); [done|].
      apply elem_of_app. right. by apply list_elem_of_singleton.
  - intros k items' Hin. rewrite filter_app.
    destruct (group_append_elem _ _ _ _ _ Hnd Hin)
      as [[Hk Hin']|[-> [[items [Hin' ->]]|[Hn ->]]]].
    + rewrite (Hg _ _ Hin'). rewrite filter_cons.
      destruct (decide (session_id r.1 = k)); [done|]. by rewrite app_nil_r.
    + rewrite (Hg _ _ Hin'). rewrite filter_cons.
      destruct (decide (session_id r.1 = session_id r.1)); done.
    + rewrite filter_cons.
      destruct (decide (session_id r.1 = session_id r.1)); [|done].
      replace (filter (fun r0 : scored => session_id r0.1 = session_id r.1) rs)
        with (@nil scored); [done|].
      symmetry. apply filter_none.
      intros r' Hr' Heq. apply Hn. rewrite <- Heq. auto.
Qed.

Lemma group_by_session_grouped rs : grouped rs (group_by_session rs).
Proof.
  unfold group_by_session. induction rs as [|r rs IH] using rev_ind.
  - split; [constructor|]. split; intros ? Hin; [by apply elem_of_nil in Hin|].
    intros Hin'. by apply elem_of_nil in Hin'.
  - rewrite fold_left_app. simpl. by apply group_append_grouped.
Qed.

(** C3: deduplication groups the results by session id and sorts each
    group by message position; walking a group, a candidate merges into the
    last kept item exactly when its position minus the kept item's is at
    most [2 * context_size], the higher score staying (the earlier on a
    tie), and the item that stays is the one later distances are measured
    from; the kept entries of all sessions come back sorted by score,
    highest first.  Two matches of one session at positions 4 and 5 with
    context size 3 collapse into the higher-scoring one. *)
Theorem deduplicate_results_merges (results : list scored) (context_size : Z) :
  let dedup_distance := 2 * context_size in
  let position := fun x : scored => message_index x.1 in
  let by_session := group_by_session results in
  grouped results by_session ∧
  (∀ group : list scored,
     StronglySorted (fun a b => position a <= position b) (sorted_by position group) ∧
     sorted_by position group ≡ₚ group ∧
     dedup_session dedup_distance group =
       merge_walk dedup_distance (sorted_by position group)) ∧
  (∀ kept last_kept candidate,
     dedup_step dedup_distance (kept ++ [last_kept]) candidate =
     if position candidate - position last_kept <=? dedup_distance
     then kept ++ [if last_kept.2 <? candidate.2 then candidate else last_kept]
     else kept ++ [last_kept; candidate]) ∧
  _deduplicate_results results context_size =
    sorted_by_reverse snd
      (flat_map (fun g => merge_walk dedup_distance (sorted_by position g.2))
                by_session) ∧
  StronglySorted (fun a b => b.2 <= a.2)
                 (_deduplicate_results results context_size) ∧
  (∀ (m1 m2 : IndexedMessage) (s1 s2 : Z),
     session_id m1 = session_id m2 ->
     message_index m1 = 4 -> message_index m2 = 5 ->
     let kept := if s1 <? s2 then (m2, s2) else (m1, s1) in
     _deduplicate_results [(m1, s1); (m2, s2)] 3 = [kept] ∧
     _deduplicate_results [(m2, s2); (m1, s1)] 3 = [kept]).
Proof.
  intros dedup_distance position by_session.
  split; [apply group_by_session_grouped|].
  split.
  { intros group. split; [apply sorted_by_sorted|].
    split; [apply sorted_by_perm|apply dedup_session_merge]. }
  split; [intros kept last_kept candidate; apply dedup_step_snoc|].
  split.
  { destruct results as [|r rs]; [done|].
    unfold _deduplicate_results. f_equal.
    apply flat_map_ext. intros g. apply dedup_session_merge. }
  split.
  { destruct results as [|r rs]; [constructor|].
    apply (sorted_by_reverse_sorted snd). }
  intros m1 m2 s1 s2 Hsid H4 H5 kept.
  unfold _deduplicate_results, group_by_session. simpl.
  rewrite Hsid, String.eqb_refl. simpl.
  unfold dedup_session, sorted_by. simpl. rewrite H4, H5. simpl.
  unfold dedup_step. simpl. rewrite H4, H5. simpl.
  subst kept. destruct (s1 <? s2); done.
Qed.

(** C3 on two messages of one session, at positions 4 and 5. *)
Lemma deduplicate_results_merges_witness :
  _deduplicate_results
    [(toy_message "s" 4 40 "four", 3000); (toy_message "s" 5 50 "five", 4500)] 3 =
  [(toy_message "s" 5 50 "five", 4500)].
Proof.
  pose proof (deduplicate_results_merges [] 3) as (_ & _ & _ & _ & _ & Hex).
  apply (Hex (toy_message "s" 4 40 "four") (toy_message "s" 5 50 "five") 3000 4500);
    reflexivity.
Defined.

(** ** argsort and the ranked walk *)

Lemma enumerate_lookup {A} (a : list A) (p : nat * A) :
  p ∈ enumerate a -> a !! p.1 = Some p.2.
Proof.
  unfold enumerate. intros Hp.
  apply list_elem_of_lookup in Hp as [k Hk].
  apply lookup_zip_with_Some in Hk as (i & x & -> & Hi & Hx).
  apply lookup_seq in Hi as [-> _]. done.
Qed.

Lemma enumerate_fst {A} (a : list A) : (enumerate a).*1 = seq 0 (length a).
Proof. unfold enumerate. apply fst_zip. by rewrite length_seq. Qed.

Lemma argsort_perm `{Capabilities} a : argsort a ≡ₚ seq 0 (length a).
Proof.
  unfold argsort. rewrite <- enumerate_fst.
  apply fmap_Permutation. by rewrite !stable_sort_perm.
Qed.

Lemma argsort_length `{Capabilities} a : length (argsort a) = length a.
Proof. by rewrite argsort_perm, length_seq. Qed.







Section SearchWalkFacts.
Variable messages : list IndexedMessage.
Variable candidate_indices : list nat.
Variable similarities : list Z.
Variable workspace_filter : option string.
Variable source_filter : option Source.
Variable threshold : Z.
Variable max_results : Z.

Local Abbreviation walk :=
  (search_walk messages candidate_indices similarities workspace_filter
               source_filter threshold max_results).




Lemma search_walk_threshold order results :
  Forall (fun r : scored => threshold <= r.2) results ->
  Forall (fun r : scored => threshold <= r.2) (walk order results).
Proof.
  revert results. induction order as [|i order IH]; intros results Hres; [done|].
  simpl. destruct (nth i similarities 0 <? threshold) eqn:E; [done|].
  apply Z.ltb_ge in E.
  destruct (messages !! nth i candidate_indices O) as [msg|]; [|done].
  destruct (workspace_mismatch workspace_filter msg); [by apply IH|].
  destruct (source_mismatch source_filter msg); [by apply IH|].
  assert (Forall (fun r : scored => threshold <= r.2)
                 (results ++ [(msg, nth i similarities 0)])).
  { apply Forall_app. split; [done|]. by repeat constructor. }
  destruct (max_results <=? _); [done|by apply IH].
Qed.


End SearchWalkFacts.




(** Which of two candidates of equal similarity is walked first is the
    choice of [np.argsort], reversed.  Under a sort that leaves equal
    elements in place the later candidate comes first; under one that
    swaps them the earlier one does.  The engine decides neither. *)
Lemma sorted_local_indices_ties_undetermined :
  sorted_local_indices (H := toy_capabilities) [5000; 5000] = [1; 0]%nat ∧
  sorted_local_indices (H := toy_swapping_ties) [5000; 5000] = [0; 1]%nat ∧
  (uuid ∘ fst) <$> (search (H := toy_capabilities) "q" None None 2000 10 None None
                           toy_ties ConversationIndex_init).2 = ["s#1"; "s#0"]%string ∧
  (uuid ∘ fst) <$> (search (H := toy_swapping_ties) "q" None None 2000 10 None None
                           toy_ties ConversationIndex_init).2 = ["s#0"; "s#1"]%string.
Proof. repeat split; vm_compute; reflexivity. Qed.

(** ** The date filter *)














(** ** Building the index: what it does to the world *)

Lemma count_builds_app evs evs' :
  count_builds (evs ++ evs') = (count_builds evs + count_builds evs')%nat.
Proof. unfold count_builds. by rewrite List.filter_app, length_app. Qed.

Lemma fingerprint_sources `{Capabilities} w w' :
  world_sources w' = world_sources w ->
  _get_sessions_fingerprint w' = _get_sessions_fingerprint w.
Proof.
  unfold world_sources. intros [= Hc Hcli Hide].
  unfold _get_sessions_fingerprint, list_all_sessions. by rewrite Hc, Hcli, Hide.
Qed.

Lemma embed_batch_world `{Capabilities} hashes acc b :
  (embed_batch hashes acc b).2 = log (EncodeBatch b.1) acc.2.
Proof.
  destruct acc as [[emb nc] w], b as [texts indices]. unfold embed_batch.
  by destruct (store_batch _ _ _ _).
Qed.

(** The batch loop calls the model once per batch and touches nothing
    else of the world. *)
Lemma embed_batches_world `{Capabilities} hashes bs acc :
  let w := acc.2 in
  let w' := (fold_left (embed_batch hashes) bs acc).2 in
  events w' = events w ++ map (fun b => EncodeBatch b.1) bs ∧
  world_sources w' = world_sources w ∧
  cache_file w' = cache_file w ∧
  cache_writable w' = cache_writable w.
Proof.
  revert acc. induction bs as [|b bs IH]; intros acc.
  - simpl. by rewrite app_nil_r.
  - cbn [fold_left]. destruct (IH (embed_batch hashes acc b)) as (He & Hs & Hc & Hw).
    cbv zeta. rewrite He, Hs, Hc, Hw, embed_batch_world. simpl.
    by rewrite <- app_assoc.
Qed.

Lemma save_cache_world `{Capabilities} nc w :
  world_sources (_save_cache nc w) = world_sources w ∧
  count_builds (events (_save_cache nc w)) = count_builds (events w).
Proof.
  unfold _save_cache. destruct (cache_writable w); [|done].
  split; [done|]. simpl. rewrite count_builds_app. unfold count_builds. simpl. lia.
Qed.

Lemma count_builds_batches {A} (f : A -> list string) (bs : list A) :
  count_builds (map (fun b => EncodeBatch (f b)) bs) = O.
Proof. induction bs as [|b bs IH]; [done|]. simpl. exact IH. Qed.

Lemma build_index_effect `{Capabilities} w st :
  world_sources (build_index w st).1 = world_sources w ∧
  count_builds (events (build_index w st).1) = S (count_builds (events w)) ∧
  _embeddings (build_index w st).2 ≠ None ∧
  _sessions_fingerprint (build_index w st).2 = _get_sessions_fingerprint w.
Proof.
  unfold build_index.
  destruct (select_sessions_within_limit _ _) as [selected excluded].
  destruct (load_messages_for_sessions _ selected) as [|m ms].
  { simpl. rewrite count_builds_app. unfold count_builds. simpl.
    repeat split; [lia|done]. }
  destruct (scan_messages _ _ _) as [[text_hashes texts] indices].
  match goal with |- context [fold_left ?f ?bs (?e, ?n, ?w0)] =>
    pose proof (embed_batches_world text_hashes bs (e, n, w0)) as (He & Hs & _);
    destruct (fold_left f bs (e, n, w0)) as [[embeddings new_cache] w'] end.
  simpl in He, Hs. simpl.
  assert (Hcount : count_builds (events w') = S (count_builds (events w))).
  { rewrite He, !count_builds_app, count_builds_batches.
    unfold count_builds. simpl. lia. }
  destruct (decide (new_cache = ∅)).
  - repeat split; done.
  - destruct (save_cache_world new_cache w') as [Hs' Hc'].
    rewrite Hs', Hc'. repeat split; done.
Qed.

Lemma ensure_index_effect `{Capabilities} w st :
  world_sources (ensure_index w st).1 = world_sources w ∧
  (count_builds (events (ensure_index w st).1) <= S (count_builds (events w)))%nat ∧
  _embeddings (ensure_index w st).2 ≠ None ∧
  _sessions_fingerprint (ensure_index w st).2 = _get_sessions_fingerprint w.
Proof.
  unfold ensure_index.
  destruct (build_index_effect w st) as (Hs & Hc & He & Hf).
  destruct (_embeddings st) as [emb|] eqn:Hemb.
  - destruct (needs_rebuild w st) eqn:Hneed.
    + repeat split; try done. lia.
    + simpl. repeat split; [lia|by rewrite Hemb|].
      unfold needs_rebuild in Hneed. apply negb_false_iff, String.eqb_eq in Hneed.
      done.
  - repeat split; try done. lia.
Qed.

Lemma ensure_index_noop `{Capabilities} w st :
  _embeddings st ≠ None ->
  _sessions_fingerprint st = _get_sessions_fingerprint w ->
  needs_rebuild w st = false ∧ ensure_index w st = (w, st).
Proof.
  intros Hemb Hfp.
  assert (Hneed : needs_rebuild w st = false).
  { unfold needs_rebuild. rewrite Hfp, String.eqb_refl. done. }
  split; [done|]. unfold ensure_index. rewrite Hneed.
  by destruct (_embeddings st).
Qed.

(** C8: [ensure_index] called twice over an unchanged session set builds
    at most once.  After the first call the index holds embeddings and the
    fingerprint of that session set, so in any world with the same
    fingerprint [needs_rebuild] is false, a second call changes neither
    the world nor the index, and a search leaves the index as it is and
    builds nothing. *)
Theorem ensure_index_idempotent `{Capabilities} (w : World) (st : ConversationIndex) :
  let w1 := (ensure_index w st).1 in
  let st1 := (ensure_index w st).2 in
  _get_sessions_fingerprint w1 = _get_sessions_fingerprint w ∧
  ensure_index w1 st1 = (w1, st1) ∧
  (count_builds (events (ensure_index w1 st1).1) <= S (count_builds (events w)))%nat ∧
  (∀ w', _get_sessions_fingerprint w' = _get_sessions_fingerprint w ->
     _embeddings st1 ≠ None ∧
     needs_rebuild w' st1 = false ∧
     ensure_index w' st1 = (w', st1) ∧
     ∀ query workspace_filter source_filter threshold max_results after before,
       let r := search query workspace_filter source_filter threshold max_results
                       after before w' st1 in
       r.1.2 = st1 ∧ count_builds (events r.1.1) = count_builds (events w')).
Proof.
  intros w1 st1.
  destruct (ensure_index_effect w st) as (Hs & Hc & He & Hf).
  fold w1 in Hs, Hc. fold st1 in He, Hf.
  assert (Hfp : _get_sessions_fingerprint w1 = _get_sessions_fingerprint w)
    by by apply fingerprint_sources.
  assert (Hsame : ∀ w', _get_sessions_fingerprint w' = _get_sessions_fingerprint w ->
            needs_rebuild w' st1 = false ∧ ensure_index w' st1 = (w', st1)).
  { intros w' Hw'. apply ensure_index_noop; [done|]. by rewrite Hf. }
  split; [done|]. destruct (Hsame w1 Hfp) as [_ Hnoop].
  split; [done|]. split; [by rewrite Hnoop|].
  intros w' Hw'. destruct (Hsame w' Hw') as [Hneed Hnoop'].
  split; [done|]. split; [done|]. split; [done|].
  intros query workspace_filter source_filter threshold max_results after before.
  unfold search. rewrite Hnoop'.
  destruct (_embeddings st1) as [[|row rows]|]; [done| |done].
  destruct (date_candidates st1 after before); [done|].
  simpl. split; [done|]. rewrite count_builds_app. unfold count_builds. simpl. lia.
Qed.

(** C8 on the three-message corpus, from a fresh index: one build. *)
Lemma ensure_index_idempotent_witness :
  let w1 := (ensure_index (H := toy_capabilities) toy_corpus ConversationIndex_init).1 in
  let st1 := (ensure_index (H := toy_capabilities) toy_corpus ConversationIndex_init).2 in
  _get_sessions_fingerprint (H := toy_capabilities) w1 =
    _get_sessions_fingerprint (H := toy_capabilities) toy_corpus ∧
  count_builds (events w1) = 1%nat ∧
  ensure_index (H := toy_capabilities) w1 st1 = (w1, st1).
Proof.
  pose proof (ensure_index_idempotent (H := toy_capabilities) toy_corpus
                ConversationIndex_init) as (Hfp & _ & _ & Hsame).
  split; [exact Hfp|]. split; [reflexivity|].
  apply (Hsame _ Hfp).
Defined.

(** ** The public search *)




(** C10: at [search_conversations] an explicit 0 for the context size,
    the threshold or the page size is taken as unset and replaced by the
    configured default (3, 0.2 and 10 out of the box): the call behaves as
    the one without the argument.  With threshold 0.0 a message scoring 0.1
    is still cut off, and a page asked for with [max_results = 0] is not
    empty. *)
Theorem zero_arguments_fall_back_to_defaults `{Capabilities} (query : string)
    (workspace_filter : option string) (source_filter : option Source)
    (after before : option string) (context_size threshold max_results : option Z)
    (offset : Z) (w : World) (st : ConversationIndex) :
  search_conversations query workspace_filter source_filter after before
    (Some 0) threshold max_results offset w st =
  search_conversations query workspace_filter source_filter after before
    None threshold max_results offset w st ∧
  search_conversations query workspace_filter source_filter after before
    context_size (Some 0) max_results offset w st =
  search_conversations query workspace_filter source_filter after before
    context_size None max_results offset w st ∧
  search_conversations query workspace_filter source_filter after before
    context_size threshold (Some 0) offset w st =
  search_conversations query workspace_filter source_filter after before
    context_size threshold None offset w st ∧
  (∀ d, or_default (Some 0) d = d ∧ or_default None d = d) ∧
  (default_context_window SearchConfig_default = 3 ∧
   default_threshold SearchConfig_default = 2000 ∧
   default_max_results SearchConfig_default = 10) ∧
  (let run := search_conversations (H := toy_capabilities) "q" None None None None
                None (Some 0) (Some 0) 0 toy_corpus ConversationIndex_init in
   ∃ resp, run.2 = inr resp ∧
     (mm_uuid ∘ matched_message) <$> results resp = ["s#1"%string] ∧
     score <$> results resp = [4000] ∧
     total_matches resp = 1 ∧
     dot (model_encode (Capabilities := toy_capabilities) "cccccccccc")
         (model_encode (Capabilities := toy_capabilities) "q") = 1000).
Proof.
  split; [done|]. split; [done|]. split; [done|]. split; [done|]. split; [done|].
  eexists. split; [vm_compute; reflexivity|]. done.
Qed.

(** ** The embedding cache *)

Lemma batches_from_concat {A} (n fuel : nat) (l : list A) :
  (0 < n)%nat -> (length l <= fuel)%nat -> concat (batches_from fuel n l) = l.
Proof.
  intros Hn. revert l. induction fuel as [|fuel IH]; intros l Hl.
  - destruct l; [done|simpl in Hl; lia].
  - destruct l as [|x l]; [done|].
    cbn [batches_from concat]. rewrite IH; [apply take_drop|].
    rewrite length_drop. simpl in *. lia.
Qed.

Lemma batches_concat {A} (n : nat) (l : list A) :
  (0 < n)%nat -> concat (batches n l) = l.
Proof. intros Hn. by apply batches_from_concat. Qed.

Lemma batches_from_zip {A B} (n fuel : nat) (l : list A) (k : list B) :
  length l = length k ->
  (zip (batches_from fuel n l) (batches_from fuel n k)).*1 = batches_from fuel n l ∧
  (zip (batches_from fuel n l) (batches_from fuel n k)).*2 = batches_from fuel n k.
Proof.
  revert l k. induction fuel as [|fuel IH]; intros l k Hlen; [done|].
  destruct l as [|x l], k as [|y k]; try done.
  cbn [batches_from zip zip_with fmap list_fmap fst snd].
  destruct (IH (drop n (x :: l)) (drop n (y :: k))) as [H1 H2].
  { by rewrite !length_drop, Hlen. }
  split; f_equal; done.
Qed.

Lemma batches_zip {A B} (n : nat) (l : list A) (k : list B) :
  length l = length k ->
  (zip (batches n l) (batches n k)).*1 = batches n l ∧
  (zip (batches n l) (batches n k)).*2 = batches n k.
Proof. intros Hlen. unfold batches. rewrite <- Hlen. by apply batches_from_zip. Qed.

Section CacheFacts.
Context `{Capabilities}.

Lemma scan_messages_spec cache i msgs :
  let '(hashes, texts, indices) := scan_messages cache i msgs in
  hashes = map (fun m => _compute_text_hash (searchable_text m)) msgs ∧
  texts = uncached_texts cache msgs ∧
  length texts = length indices ∧
  (∀ k m, msgs !! k = Some m ->
     cache !! _compute_text_hash (searchable_text m) = None ->
     (i + k)%nat ∈ indices).
Proof.
  revert i. induction msgs as [|msg msgs IH]; intros i; [done|].
  cbn [scan_messages]. specialize (IH (S i)).
  destruct (scan_messages cache (S i) msgs) as [[hashes texts] indices].
  destruct IH as (Hh & Ht & Hl & Hi).
  unfold uncached_texts in *. rewrite filter_cons.
  destruct (cache !! _compute_text_hash (searchable_text msg)) as [v|] eqn:Hc.
  - rewrite decide_False by done.
    split; [by rewrite Hh|]. split; [done|]. split; [done|].
    intros [|k] m Hm Hnone; simpl in Hm.
    + inversion Hm; subst. by rewrite Hc in Hnone.
    + replace (i + S k)%nat with (S i + k)%nat by lia. by eapply Hi.
  - rewrite decide_True by done.
    split; [by rewrite Hh|]. split; [by rewrite fmap_cons, Ht|].
    split; [simpl; by rewrite Hl|].
    intros [|k] m Hm Hnone; simpl in Hm.
    + replace (i + 0)%nat with i by lia. by left.
    + right. replace (i + S k)%nat with (S i + k)%nat by lia. by eapply Hi.
Qed.

(** Storing vectors only adds keys, and adds the key of every row stored. *)
Lemma store_rows_keys hashes vectors (l : list (nat * nat)) acc :
  let nc' := (fold_left (store_row hashes vectors) l acc).2 in
  (∀ k, is_Some (acc.2 !! k) -> is_Some (nc' !! k)) ∧
  (∀ p, p ∈ l -> is_Some (nc' !! nth p.2 hashes EmptyString)).
Proof.
  revert acc. induction l as [|[i idx] l IH]; intros [emb nc].
  - simpl. split; [done|]. intros p Hp. by apply elem_of_nil in Hp.
  - cbn [fold_left].
    destruct (IH (store_row hashes vectors (emb, nc) (i, idx))) as [Hgrow Hall].
    cbv zeta. simpl in Hgrow. split.
    + intros k Hk. apply Hgrow.
      destruct (decide (nth idx hashes EmptyString = k)) as [->|Hne].
      * rewrite lookup_insert_eq. eauto.
      * by rewrite lookup_insert_ne.
    + intros p Hp. apply elem_of_cons in Hp as [->|Hp]; [|by apply Hall].
      apply Hgrow. simpl. rewrite lookup_insert_eq. eauto.
Qed.

Lemma store_batch_keys hashes vectors indices acc :
  let nc' := (store_batch hashes vectors indices acc).2 in
  (∀ k, is_Some (acc.2 !! k) -> is_Some (nc' !! k)) ∧
  (∀ idx, idx ∈ indices -> is_Some (nc' !! nth idx hashes EmptyString)).
Proof.
  unfold store_batch.
  destruct (store_rows_keys hashes vectors (enumerate indices) acc)
    as [Hgrow Hall].
  split; [exact Hgrow|].
  intros idx Hidx.
  assert (Hsnd : idx ∈ (enumerate indices).*2).
  { unfold enumerate. rewrite snd_zip; [done|by rewrite length_seq]. }
  apply list_elem_of_fmap in Hsnd as (p & -> & Hp). by apply Hall.
Qed.

Lemma embed_batch_cache hashes acc b :
  (embed_batch hashes acc b).1.2 =
  (store_batch hashes (map model_encode b.1) b.2 (acc.1.1, acc.1.2)).2.
Proof.
  destruct acc as [[emb nc] w], b as [texts indices]. unfold embed_batch. simpl.
  by destruct (store_batch _ _ _ _).
Qed.

Lemma embed_batches_keys hashes bs acc :
  let nc' := (fold_left (embed_batch hashes) bs acc).1.2 in
  (∀ k, is_Some (acc.1.2 !! k) -> is_Some (nc' !! k)) ∧
  (∀ b idx, b ∈ bs -> idx ∈ b.2 -> is_Some (nc' !! nth idx hashes EmptyString)).
Proof.
  revert acc. induction bs as [|b bs IH]; intros acc.
  - simpl. split; [done|]. intros b idx Hb. by apply elem_of_nil in Hb.
  - cbn [fold_left]. destruct (IH (embed_batch hashes acc b)) as [Hgrow Hall].
    rewrite embed_batch_cache in Hgrow.
    destruct (store_batch_keys hashes (map model_encode b.1) b.2
                (acc.1.1, acc.1.2)) as [Hgrow1 Hall1].
    cbv zeta. split.
    + intros k Hk. apply Hgrow, Hgrow1. done.
    + intros b' idx Hb' Hidx. apply elem_of_cons in Hb' as [->|Hb'].
      * apply Hgrow. by apply Hall1.
      * by eapply Hall.
Qed.
End CacheFacts.

Lemma embedded_texts_app evs evs' :
  embedded_texts (evs ++ evs') = embedded_texts evs ++ embedded_texts evs'.
Proof. unfold embedded_texts. apply flat_map_app. Qed.

Lemma embedded_texts_batches (bs : list (list string)) :
  embedded_texts (map EncodeBatch bs) = concat bs.
Proof.
  unfold embedded_texts. induction bs as [|b bs IH]; [done|].
  simpl. by rewrite IH.
Qed.

(** C6, as amended: within one index build the texts sent to the model
    are the searchable texts of the messages whose content hash is not in
    the cache loaded at the start of the build, one per such message, in
    message order and in batches of 100, each batch one call; so two
    messages with the same uncached text are both embedded.  Equal texts
    have one cache key, the cache only grows, and after a build whose
    cache write goes through the persisted cache holds a vector for the
    text of every message of the index, hence for every text embedded. *)
Theorem build_index_embeds_uncached `{Capabilities} (w : World) (st : ConversationIndex) :
  let w' := (build_index w st).1 in
  let st' := (build_index w st).2 in
  let texts := uncached_texts (cache_file w) (_messages st') in
  (∃ saved,
     events w' = events w ++ BuildIndex :: map EncodeBatch (batches 100 texts) ++ saved ∧
     (saved = [] ∨ ∃ hashes, saved = [SaveCache hashes])) ∧
  embedded_texts (events w') = embedded_texts (events w) ++ texts ∧
  (∀ m1 m2, searchable_text m1 = searchable_text m2 ->
     _compute_text_hash (searchable_text m1) = _compute_text_hash (searchable_text m2)) ∧
  (∀ k, is_Some (cache_file w !! k) -> is_Some (cache_file w' !! k)) ∧
  (cache_writable w = true ->
   ∀ m, m ∈ _messages st' ->
     is_Some (cache_file w' !! _compute_text_hash (searchable_text m))).
Proof.
  intros w' st' texts.
  assert (Hmain :
    (∃ saved,
       events w' = events w ++ BuildIndex :: map EncodeBatch (batches 100 texts) ++ saved ∧
       (saved = [] ∨ ∃ hashes, saved = [SaveCache hashes])) ∧
    (∀ k, is_Some (cache_file w !! k) -> is_Some (cache_file w' !! k)) ∧
    (cache_writable w = true ->
     ∀ m, m ∈ _messages st' ->
       is_Some (cache_file w' !! _compute_text_hash (searchable_text m)))).
  { subst w' st' texts. unfold build_index.
    destruct (select_sessions_within_limit _ _) as [selected excluded].
    destruct (load_messages_for_sessions _ selected) as [|m0 ms] eqn:Hmsgs.
    { simpl. split; [exists []; split; [done|by left]|]. split; [done|].
      intros _ m Hm. by apply elem_of_nil in Hm. }
    set (msgs := m0 :: ms).
    pose proof (scan_messages_spec (_load_cache (log BuildIndex w)) 0 msgs) as Hscan.
    destruct (scan_messages _ _ msgs) as [[hashes txts] indices].
    destruct Hscan as (Hh & Ht & Hl & Hi).
    destruct (batches_zip 100 txts indices Hl) as [Hfst Hsnd].
    match goal with |- context [fold_left ?f ?bs ?acc] =>
      pose proof (embed_batches_world hashes bs acc) as (He & _ & Hc & Hw);
      pose proof (embed_batches_keys hashes bs acc) as [_ Hkeys];
      destruct (fold_left f bs acc) as [[embeddings new_cache] w2] end.
    simpl in He, Hc, Hw, Hkeys.
    unfold _build_metadata_indices. subst msgs. cbn [fst snd _messages].
    set (msgs := m0 :: ms) in *.
    assert (Hev : events w2 =
              events w ++ BuildIndex :: map EncodeBatch (batches 100 txts)).
    { rewrite He, <- app_assoc. simpl. f_equal. f_equal.
      replace (map EncodeBatch (batches 100 txts))
        with (map EncodeBatch (zip (batches 100 txts) (batches 100 indices)).*1)
        by by rewrite Hfst.
      generalize (zip (batches 100 txts) (batches 100 indices)).
      intros bs. induction bs as [|b bs IH]; simpl; [done|]. by rewrite IH. }
    assert (Hnew : ∀ m, m ∈ msgs ->
              _load_cache (log BuildIndex w) !! _compute_text_hash (searchable_text m)
                = None ->
              is_Some (new_cache !! _compute_text_hash (searchable_text m))).
    { intros m Hm Hnone. apply list_elem_of_lookup in Hm as [k Hk].
      specialize (Hi k m Hk Hnone). simpl in Hi.
      rewrite <- (batches_concat 100 indices) in Hi by lia.
      apply list_elem_of_In, in_concat in Hi as (batch & Hbatch & Hin).
      apply list_elem_of_In in Hbatch, Hin.
      rewrite <- Hsnd in Hbatch.
      apply list_elem_of_fmap in Hbatch as (b & -> & Hb).
      specialize (Hkeys b k Hb Hin).
      replace (nth k hashes EmptyString)
        with (_compute_text_hash (searchable_text m)) in Hkeys; [done|].
      symmetry. apply nth_lookup_Some. rewrite Hh.
      change (map ?f msgs) with (f <$> msgs). by rewrite list_lookup_fmap, Hk. }
    rewrite Ht in Hev. change (_load_cache (log BuildIndex w)) with (cache_file w) in *.
    destruct (decide (new_cache = ∅)) as [Hempty|Hnonempty].
    - simpl. split; [exists []; split; [by rewrite app_nil_r|by left]|].
      split; [intros k Hk; by rewrite Hc|].
      intros _ m Hm. rewrite Hc.
      destruct (cache_file w !! _compute_text_hash (searchable_text m)) eqn:Hlook;
        [eauto|].
      specialize (Hnew m Hm Hlook). rewrite Hempty, lookup_empty in Hnew.
      by destruct Hnew.
    - unfold _save_cache. rewrite Hw.
      destruct (cache_writable w) eqn:Hwritable.
      + simpl. split; [eexists; split; [by rewrite Hev, <- app_assoc|eauto]|].
        unfold _load_cache. rewrite Hc.
        split; [intros k Hk; apply lookup_union_is_Some; by right|].
        intros _ m Hm. apply lookup_union_is_Some.
        destruct (cache_file w !! _compute_text_hash (searchable_text m)) eqn:Hlook;
          [right; eauto|left; by apply Hnew].
      + simpl. split; [exists []; split; [by rewrite app_nil_r|by left]|].
        split; [intros k Hk; by rewrite Hc|]. done. }
  destruct Hmain as ((saved & Hev & Hsaved) & Hgrow & Hall).
  split; [by exists saved|]. split; [|split; [|split]]; try done.
  - rewrite Hev. change (?a :: ?l ++ saved) with ([a] ++ l ++ saved).
    rewrite !embedded_texts_app, embedded_texts_batches, batches_concat by lia.
    destruct Hsaved as [->|[hashes ->]]; simpl; by rewrite app_nil_r.
  - intros m1 m2 Htext. by rewrite Htext.
Qed.

(** C6 as stated fails: with 101 messages of one text and an empty cache,
    that text goes to the model in two calls of one build; with two such
    messages it is embedded twice in one call. *)
Lemma build_index_embeds_duplicates :
  searchable_text <$> _messages
    (build_index (H := toy_capabilities) toy_repeats ConversationIndex_init).2 =
    replicate 101 "same"%string ∧
  batch_calls_with "same"
    (events (build_index (H := toy_capabilities) toy_repeats
               ConversationIndex_init).1) = 2%nat ∧
  embedded_texts
    (events (build_index (H := toy_capabilities)
               (toy_world [toy_session "s" 2 1]
                  [toy_message "s" 0 1 "same"; toy_message "s" 1 2 "same"])
               ConversationIndex_init).1) = ["same"; "same"]%string.
Proof. split; [|split]; vm_compute; reflexivity. Qed.

(** C6 on the session of 101 equal messages: all are embedded, and the
    cache written at the end holds their text. *)
Lemma build_index_embeds_uncached_witness :
  let w' := (build_index (H := toy_capabilities) toy_repeats ConversationIndex_init).1 in
  cache_writable toy_repeats = true ∧
  is_Some (cache_file w' !! "same"%string) ∧
  embedded_texts (events w') = replicate 101 "same"%string.
Proof.
  pose proof (build_index_embeds_uncached (H := toy_capabilities) toy_repeats
                ConversationIndex_init) as (_ & Hemb & _ & _ & Hall).
  split; [reflexivity|]. split.
  - apply (Hall eq_refl (toy_message "s" 0 0 "same")). vm_compute. constructor.
  - rewrite Hemb. vm_compute. reflexivity.
Defined.

(** * Further properties of the engine *)

(** ** What [search] returns *)

Section SearchResultFacts.
Variable messages : list IndexedMessage.
Variable candidate_indices : list nat.
Variable similarities : list Z.
Variable workspace_filter : option string.
Variable source_filter : option Source.
Variable threshold : Z.
Variable max_results : Z.

Local Abbreviation walk :=
  (search_walk messages candidate_indices similarities workspace_filter
               source_filter threshold max_results).

(** The length test comes after the append, so a walk that starts below the
    limit ends at it, and one that starts at or above it adds one result
    at most. *)
Lemma search_walk_length order results :
  Z.of_nat (length (walk order results)) <=
  Z.max max_results (Z.of_nat (length results) + 1).
Proof.
  revert results. induction order as [|i order IH]; intros results; [simpl; lia|].
  simpl. destruct (nth i similarities 0 <? threshold); [lia|].
  destruct (messages !! nth i candidate_indices O) as [msg|]; [|lia].
  destruct (workspace_mismatch workspace_filter msg); [apply IH|].
  destruct (source_mismatch source_filter msg); [apply IH|].
  destruct (max_results <=? _) eqn:E.
  - rewrite length_app. simpl. lia.
  - apply Z.leb_gt in E. specialize (IH (results ++ [(msg, nth i similarities 0)])).
    rewrite length_app in *. simpl in *. lia.
Qed.

Lemma search_walk_passes order results :
  Forall (fun r : scored => r.1 ∈ messages ∧
            workspace_mismatch workspace_filter r.1 = false ∧
            source_mismatch source_filter r.1 = false) results ->
  Forall (fun r : scored => r.1 ∈ messages ∧
            workspace_mismatch workspace_filter r.1 = false ∧
            source_mismatch source_filter r.1 = false) (walk order results).
Proof.
  revert results. induction order as [|i order IH]; intros results Hres; [done|].
  simpl. destruct (nth i similarities 0 <? threshold); [done|].
  destruct (messages !! nth i candidate_indices O) as [msg|] eqn:Hmsg; [|done].
  destruct (workspace_mismatch workspace_filter msg) eqn:Hw; [by apply IH|].
  destruct (source_mismatch source_filter msg) eqn:Hs; [by apply IH|].
  assert (Forall (fun r : scored => r.1 ∈ messages ∧
            workspace_mismatch workspace_filter r.1 = false ∧
            source_mismatch source_filter r.1 = false)
            (results ++ [(msg, nth i similarities 0)])).
  { apply Forall_app. split; [done|]. repeat constructor; simpl; try done.
    by eapply list_elem_of_lookup_2. }
  destruct (max_results <=? _); [done|by apply IH].
Qed.
End SearchResultFacts.

Lemma Source_eqb_eq a b : Source_eqb a b = true ↔ a = b.
Proof. destruct a, b; simpl; split; done. Qed.

(** [search] returns at most [max_results] pairs, and one when the limit
    is zero or negative; every pair holds a message of the index that
    passes the filters: its workspace starts with a non-empty workspace
    filter and its source is the one asked for. *)
Theorem search_results_bounded_and_filtered `{Capabilities} (query : string)
    (workspace_filter : option string) (source_filter : option Source)
    (threshold max_results : Z) (after before : option datetime)
    (w : World) (st : ConversationIndex) :
  let found :=
    (search query workspace_filter source_filter threshold max_results
            after before w st).2 in
  let built := (ensure_index w st).2 in
  Z.of_nat (length found) <= Z.max 1 max_results ∧
  Forall (fun r : scored =>
    r.1 ∈ _messages built ∧
    (∀ p, workspace_filter = Some p -> p ≠ EmptyString ->
          String.prefix p (workspace r.1) = true) ∧
    (∀ s, source_filter = Some s -> source r.1 = s)) found.
Proof.
  intros found built. subst found built. unfold search.
  destruct (ensure_index w st) as [w1 st1]. cbn [snd].
  destruct (_embeddings st1) as [[|row rows]|]; cbn [snd];
    [split; [simpl; lia|constructor]| |split; [simpl; lia|constructor]].
  destruct (date_candidates st1 after before) as [|c cs]; cbn [snd];
    [split; [simpl; lia|constructor]|].
  split.
  - match goal with |- context [search_walk ?m ?c ?s ?wf ?sf ?t ?mr ?o ?r] =>
      pose proof (search_walk_length m c s wf sf t mr o r) as Hlen end.
    change (Z.of_nat (length (@nil scored)) + 1) with 1 in Hlen. lia.
  - eapply Forall_impl; [apply search_walk_passes; constructor|].
    intros [msg sc] (Hin & Hw & Hs). cbn [fst] in *. split; [done|]. split.
    + intros p -> Hp. unfold workspace_mismatch in Hw.
      destruct p; [done|]. by apply negb_false_iff in Hw.
    + intros s ->. unfold source_mismatch in Hs.
      apply negb_false_iff in Hs. by apply Source_eqb_eq.
Qed.

(** On the three-message corpus, asked for at most one result under the
    workspace "/w". *)
Lemma search_results_bounded_and_filtered_witness :
  let found :=
    (search (H := toy_capabilities) "q" (Some "/w"%string) (Some CLI) 2000 1
            None None toy_corpus ConversationIndex_init).2 in
  length found = 1%nat ∧
  Forall (fun r : scored => String.prefix "/w" (workspace r.1) = true ∧
                            source r.1 = CLI) found.
Proof.
  pose proof (search_results_bounded_and_filtered (H := toy_capabilities) "q"
                (Some "/w"%string) (Some CLI) 2000 1 None None toy_corpus
                ConversationIndex_init) as [_ Hall].
  split; [reflexivity|].
  eapply Forall_impl; [exact Hall|].
  intros r (_ & Hw & Hs). split; [by apply Hw|by apply Hs].
Defined.

(** ** The rows of a built index *)

Section RowFacts.
Context `{Capabilities}.
Variable cache : gmap string vec.
Variable msgs : list IndexedMessage.

Lemma row_ready_insert k i v emb :
  (∀ m, msgs !! i = Some m -> v = expected_row cache m) ->
  row_ready cache msgs k emb -> row_ready cache msgs k (<[i := v]> emb).
Proof.
  intros Hv Hk m Hm. destruct (decide (i = k)) as [->|Hne].
  - rewrite list_lookup_insert_eq; [by rewrite (Hv m Hm)|].
    eapply lookup_lt_Some. by apply Hk.
  - rewrite list_lookup_insert_ne by done. by apply Hk.
Qed.

Lemma row_ready_insert_eq i v emb :
  (i < length emb)%nat ->
  (∀ m, msgs !! i = Some m -> v = expected_row cache m) ->
  row_ready cache msgs i (<[i := v]> emb).
Proof.
  intros Hi Hv m Hm. rewrite list_lookup_insert_eq by done. by rewrite (Hv m Hm).
Qed.

(** The rows whose hash is cached are ready once [load_cached] is done. *)
Lemma load_cached_rows (l : list (nat * string)) emb :
  (∀ p m, p ∈ l -> msgs !! p.1 = Some m ->
          p.2 = _compute_text_hash (searchable_text m)) ->
  let emb' :=
    fold_left (fun e '(i, text_hash) =>
                 match cache !! text_hash with
                 | Some v => <[i := v]> e
                 | None => e
                 end) l emb in
  length emb' = length emb ∧
  (∀ k, row_ready cache msgs k emb -> row_ready cache msgs k emb') ∧
  (∀ p, p ∈ l -> (p.1 < length emb)%nat -> is_Some (cache !! p.2) ->
        row_ready cache msgs p.1 emb').
Proof.
  revert emb. induction l as [|[i h] l IH]; intros emb Hl.
  - simpl. split; [done|]. split; [done|]. intros p Hp. by apply elem_of_nil in Hp.
  - cbn [fold_left].
    assert (Hl' : ∀ p m, p ∈ l -> msgs !! p.1 = Some m ->
                    p.2 = _compute_text_hash (searchable_text m)).
    { intros p m Hp. apply Hl. by right. }
    assert (Hwrite : ∀ v, cache !! h = Some v ->
              ∀ m, msgs !! i = Some m -> v = expected_row cache m).
    { intros v Hv m Hm. unfold expected_row.
      rewrite <- (Hl (i, h) m ltac:(by left) Hm). simpl. by rewrite Hv. }
    destruct (cache !! h) as [v|] eqn:Hc.
    + destruct (IH (<[i := v]> emb) Hl') as (Hlen & Hkeep & Hnew).
      cbv zeta. rewrite length_insert in Hlen, Hnew.
      split; [done|]. split.
      * intros k Hk. apply Hkeep. apply row_ready_insert; [by apply Hwrite|done].
      * intros p Hp Hlt Hsome. apply elem_of_cons in Hp as [->|Hp];
          [|by apply Hnew].
        apply Hkeep. simpl in *. apply row_ready_insert_eq; [done|by apply Hwrite].
    + destruct (IH emb Hl') as (Hlen & Hkeep & Hnew).
      cbv zeta. split; [done|]. split; [done|].
      intros p Hp Hlt Hsome. apply elem_of_cons in Hp as [->|Hp];
        [|by apply Hnew].
      simpl in Hsome. rewrite Hc in Hsome. by destruct Hsome.
Qed.

(** The rows written from a batch are ready, and ready rows stay so. *)
Lemma store_rows_ready hashes vectors (l : list (nat * nat)) acc :
  (∀ p m, p ∈ l -> msgs !! p.2 = Some m ->
          nth p.1 vectors [] = expected_row cache m) ->
  let emb' := (fold_left (store_row hashes vectors) l acc).1 in
  length emb' = length acc.1 ∧
  (∀ k, row_ready cache msgs k acc.1 -> row_ready cache msgs k emb') ∧
  (∀ p, p ∈ l -> (p.2 < length acc.1)%nat -> row_ready cache msgs p.2 emb').
Proof.
  revert acc. induction l as [|[j idx] l IH]; intros [emb nc] Hl.
  - simpl. split; [done|]. split; [done|]. intros p Hp. by apply elem_of_nil in Hp.
  - cbn [fold_left].
    assert (Hl' : ∀ p m, p ∈ l -> msgs !! p.2 = Some m ->
                    nth p.1 vectors [] = expected_row cache m).
    { intros p m Hp. apply Hl. by right. }
    assert (Hwrite : ∀ m, msgs !! idx = Some m ->
              nth j vectors [] = expected_row cache m).
    { intros m Hm. by apply (Hl (j, idx) m ltac:(by left)). }
    destruct (IH (store_row hashes vectors (emb, nc) (j, idx)) Hl')
      as (Hlen & Hkeep & Hnew).
    cbv zeta. simpl in Hlen, Hkeep, Hnew. rewrite length_insert in Hlen, Hnew.
    simpl. split; [done|]. split.
    + intros k Hk. apply Hkeep. by apply row_ready_insert.
    + intros p Hp Hlt. apply elem_of_cons in Hp as [->|Hp]; [|by apply Hnew].
      apply Hkeep. simpl in *. by apply row_ready_insert_eq.
Qed.

Lemma store_batch_ready hashes texts indices acc :
  Forall2 (queued cache msgs) texts indices ->
  let emb' := (store_batch hashes (map model_encode texts) indices acc).1 in
  length emb' = length acc.1 ∧
  (∀ k, row_ready cache msgs k acc.1 -> row_ready cache msgs k emb') ∧
  (∀ idx, idx ∈ indices -> (idx < length acc.1)%nat -> row_ready cache msgs idx emb').
Proof.
  intros Hq. unfold store_batch.
  destruct (store_rows_ready hashes (map model_encode texts) (enumerate indices) acc)
    as (Hlen & Hkeep & Hnew).
  { intros [j idx] m Hp Hm. apply enumerate_lookup in Hp. simpl in *.
    destruct (Forall2_lookup_r _ _ _ _ _ Hq Hp) as (t & Ht & m' & Hm' & Htext & Hnone).
    rewrite Hm in Hm'. inversion Hm'; subst m'.
    rewrite (nth_lookup_Some _ _ _ (model_encode t)).
    - unfold expected_row. by rewrite Htext, Hnone.
    - change (map model_encode texts) with (model_encode <$> texts).
      by rewrite list_lookup_fmap, Ht. }
  split; [done|]. split; [done|].
  intros idx Hidx Hlt.
  assert (Hsnd : idx ∈ (enumerate indices).*2).
  { unfold enumerate. rewrite snd_zip; [done|by rewrite length_seq]. }
  apply list_elem_of_fmap in Hsnd as (p & -> & Hp). by apply Hnew.
Qed.

Lemma embed_batch_rows hashes acc b :
  (embed_batch hashes acc b).1.1 =
  (store_batch hashes (map model_encode b.1) b.2 (acc.1.1, acc.1.2)).1.
Proof.
  destruct acc as [[emb nc] w], b as [texts indices]. unfold embed_batch. simpl.
  by destruct (store_batch _ _ _ _).
Qed.

Lemma embed_batches_ready hashes bs acc :
  Forall (fun b => Forall2 (queued cache msgs) b.1 b.2) bs ->
  let emb' := (fold_left (embed_batch hashes) bs acc).1.1 in
  length emb' = length acc.1.1 ∧
  (∀ k, row_ready cache msgs k acc.1.1 -> row_ready cache msgs k emb') ∧
  (∀ b idx, b ∈ bs -> idx ∈ b.2 -> (idx < length acc.1.1)%nat ->
            row_ready cache msgs idx emb').
Proof.
  revert acc. induction bs as [|b bs IH]; intros acc Hbs.
  - simpl. split; [done|]. split; [done|]. intros b idx Hb. by apply elem_of_nil in Hb.
  - apply Forall_cons in Hbs as [Hb Hbs]. cbn [fold_left].
    destruct (IH (embed_batch hashes acc b) Hbs) as (Hlen & Hkeep & Hnew).
    rewrite embed_batch_rows in Hlen, Hkeep, Hnew.
    destruct (store_batch_ready hashes b.1 b.2 (acc.1.1, acc.1.2) Hb)
      as (Hlen1 & Hkeep1 & Hnew1).
    cbv zeta. simpl in Hlen1, Hkeep1, Hnew1. rewrite Hlen1 in Hlen, Hnew.
    split; [done|]. split; [intros k Hk; by apply Hkeep, Hkeep1|].
    intros b' idx Hb' Hidx Hlt. apply elem_of_cons in Hb' as [->|Hb'].
    + apply Hkeep. by apply Hnew1.
    + by eapply Hnew.
Qed.

Lemma scan_messages_queued i pre rest :
  msgs = pre ++ rest -> i = length pre ->
  Forall2 (queued cache msgs) (scan_messages cache i rest).1.2
                              (scan_messages cache i rest).2.
Proof.
  revert i pre. induction rest as [|msg rest IH]; intros i pre Hmsgs Hi.
  - simpl. constructor.
  - cbn [scan_messages].
    specialize (IH (S i) (pre ++ [msg])).
    destruct (scan_messages cache (S i) rest) as [[hashes texts] indices].
    simpl in IH.
    assert (Hrest : Forall2 (queued cache msgs) texts indices).
    { apply IH; [by rewrite <- app_assoc|rewrite length_app; simpl; lia]. }
    destruct (cache !! _compute_text_hash (searchable_text msg)) eqn:Hc; simpl;
      [done|].
    constructor; [|done]. exists msg. split; [|done].
    subst msgs i. by rewrite lookup_app_r, Nat.sub_diag.
Qed.

Lemma batches_from_queued (n fuel : nat) texts indices :
  Forall2 (queued cache msgs) texts indices ->
  Forall (fun b => Forall2 (queued cache msgs) b.1 b.2)
         (zip (batches_from fuel n texts) (batches_from fuel n indices)).
Proof.
  revert texts indices. induction fuel as [|fuel IH]; intros texts indices Hq.
  - constructor.
  - destruct Hq as [|t idx texts indices Ht Hq]; [constructor|].
    cbn [batches_from zip zip_with]. constructor.
    + simpl. apply Forall2_take. by constructor.
    + apply IH. apply Forall2_drop. by constructor.
Qed.
End RowFacts.

Lemma enumerate_elem {A} (a : list A) k x : a !! k = Some x -> (k, x) ∈ enumerate a.
Proof.
  intros Hk. unfold enumerate. apply (list_elem_of_lookup_2 _ k).
  apply lookup_zip_with_Some. exists k, x. split; [done|]. split; [|done].
  apply lookup_seq. split; [done|]. by eapply lookup_lt_Some.
Qed.

Lemma build_index_rows `{Capabilities} (w : World) (st : ConversationIndex) :
  let built := (build_index w st).2 in
  ∃ embeddings,
    _embeddings built = Some embeddings ∧
    length embeddings = length (_messages built) ∧
    length (_text_hashes built) = length (_messages built) ∧
    ∀ i m, _messages built !! i = Some m ->
      _text_hashes built !! i = Some (_compute_text_hash (searchable_text m)) ∧
      embeddings !! i = Some (expected_row (cache_file w) m).
Proof.
  intros built. subst built. unfold build_index.
  destruct (select_sessions_within_limit _ _) as [selected excluded].
  destruct (load_messages_for_sessions _ selected) as [|m0 ms] eqn:Hmsgs.
  { simpl. exists []. repeat split; done. }
  set (msgs := m0 :: ms).
  set (cache := _load_cache (log BuildIndex w)).
  pose proof (scan_messages_spec cache 0 msgs) as Hscan.
  pose proof (scan_messages_queued cache msgs 0 [] msgs eq_refl eq_refl) as Hqueued.
  destruct (scan_messages cache 0 msgs) as [[hashes txts] indices].
  destruct Hscan as (Hh & _ & Hl & Hi). simpl in Hqueued.
  destruct (batches_zip 100 txts indices Hl) as [_ Hsnd].
  pose proof (batches_from_queued cache msgs 100 (length txts) txts indices Hqueued)
    as Hbs.
  rewrite Hl in Hbs at 2. fold (batches 100 txts) (batches 100 indices) in Hbs.
  assert (Hhash : ∀ i m, msgs !! i = Some m ->
            hashes !! i = Some (_compute_text_hash (searchable_text m))).
  { intros i m Hm. rewrite Hh.
    change (map ?f msgs) with (f <$> msgs). by rewrite list_lookup_fmap, Hm. }
  set (zeros := replicate (length msgs) (replicate EMBEDDING_DIM 0)).
  destruct (load_cached_rows cache msgs (enumerate hashes) zeros)
    as (Hlen1 & _ & Hcached).
  { intros [i h] m Hp Hm. apply enumerate_lookup in Hp. simpl in *.
    rewrite (Hhash i m Hm) in Hp. by inversion Hp. }
  fold (load_cached cache hashes zeros) in Hlen1, Hcached.
  match goal with |- context [fold_left ?f ?bs ?acc] =>
    destruct (embed_batches_ready cache msgs hashes bs acc Hbs)
      as (Hlen2 & Hkeep & Hnew);
    destruct (fold_left f bs acc) as [[embeddings new_cache] w2] end.
  simpl in Hlen2, Hkeep, Hnew.
  unfold _build_metadata_indices. subst msgs. cbn [fst snd _messages _embeddings
    _text_hashes]. set (msgs := m0 :: ms) in *.
  assert (Hzeros : length zeros = length msgs) by apply length_replicate.
  exists embeddings. split; [done|].
  split; [by rewrite Hlen2, Hlen1|].
  split; [by rewrite Hh, length_map|].
  intros i m Hm. split; [by apply Hhash|].
  assert (Hlt : (i < length msgs)%nat) by by eapply lookup_lt_Some.
  destruct (cache !! _compute_text_hash (searchable_text m)) as [v|] eqn:Hc.
  - apply Hkeep; [|done].
    apply (Hcached (i, _compute_text_hash (searchable_text m))); cbn [fst snd].
    + apply enumerate_elem. by apply Hhash.
    + by rewrite Hzeros.
    + by rewrite Hc.
  - specialize (Hi i m Hm Hc). simpl in Hi.
    rewrite <- (batches_concat 100 indices) in Hi by lia.
    apply list_elem_of_In, in_concat in Hi as (batch & Hbatch & Hin).
    apply list_elem_of_In in Hbatch, Hin.
    rewrite <- Hsnd in Hbatch.
    apply list_elem_of_fmap in Hbatch as (b & -> & Hb).
    apply (Hnew b i Hb Hin); [|done]. by rewrite Hlen1, Hzeros.
Qed.

(** Row [i] of a built index belongs to message [i]: the matrix and the
    hash list are as long as the message list, the hash at [i] is the hash
    of the text of message [i], and the vector at [i] is the cached vector
    of that hash when the cache the build loaded has one and the model's
    vector of the text otherwise. *)
Theorem build_index_rows_match_messages `{Capabilities} (w : World)
    (st : ConversationIndex) :
  let built := (build_index w st).2 in
  ∃ embeddings,
    _embeddings built = Some embeddings ∧
    length embeddings = length (_messages built) ∧
    length (_text_hashes built) = length (_messages built) ∧
    ∀ i m, _messages built !! i = Some m ->
      _text_hashes built !! i = Some (_compute_text_hash (searchable_text m)) ∧
      embeddings !! i = Some (expected_row (cache_file w) m).
Proof. apply build_index_rows. Qed.

(** On the three-message corpus with an empty cache, row 0 is the model's
    vector of the first text. *)
Lemma build_index_rows_match_messages_witness :
  let built := (build_index (H := toy_capabilities) toy_corpus
                  ConversationIndex_init).2 in
  ∃ embeddings,
    _embeddings built = Some embeddings ∧
    embeddings !! O = Some [300; 0].
Proof.
  destruct (build_index_rows_match_messages (H := toy_capabilities) toy_corpus
              ConversationIndex_init) as (embeddings & Hemb & _ & _ & Hrows).
  exists embeddings. split; [exact Hemb|].
  apply (Hrows O (toy_message "s" 0 5 "aaaaaaaaaaaaaaaaaaaaaaaaaaaaaa")).
  reflexivity.
Defined.

(** ** Rebuilding from the persisted cache *)

Section FreshFacts.
Context `{Capabilities}.
Variable cache : gmap string vec.
Variable msgs : list IndexedMessage.

Lemma store_rows_fresh hashes vectors (l : list (nat * nat)) acc :
  (∀ p, p ∈ l ->
     ∃ m, m ∈ msgs ∧
          nth p.2 hashes EmptyString = _compute_text_hash (searchable_text m) ∧
          cache !! _compute_text_hash (searchable_text m) = None ∧
          nth p.1 vectors [] = model_encode (searchable_text m)) ->
  fresh_entries cache msgs acc.2 ->
  fresh_entries cache msgs (fold_left (store_row hashes vectors) l acc).2.
Proof.
  revert acc. induction l as [|[j idx] l IH]; intros [emb nc] Hl Hacc; [done|].
  cbn [fold_left]. apply IH; [intros p Hp; apply Hl; by right|].
  destruct (Hl (j, idx) ltac:(by left)) as (m & Hm & Hh & Hnone & Hv).
  simpl in *. intros h v Hlook.
  destruct (decide (nth idx hashes EmptyString = h)) as [<-|Hne].
  - rewrite lookup_insert_eq in Hlook. inversion Hlook; subst v.
    exists m. rewrite Hh. done.
  - rewrite lookup_insert_ne in Hlook by done. by apply Hacc.
Qed.

Lemma store_batch_fresh hashes texts indices acc :
  hashes = map (fun m => _compute_text_hash (searchable_text m)) msgs ->
  Forall2 (queued cache msgs) texts indices ->
  fresh_entries cache msgs acc.2 ->
  fresh_entries cache msgs
    (store_batch hashes (map model_encode texts) indices acc).2.
Proof.
  intros Hh Hq Hacc. unfold store_batch. apply store_rows_fresh; [|done].
  intros [j idx] Hp. apply enumerate_lookup in Hp. simpl in *.
  destruct (Forall2_lookup_r _ _ _ _ _ Hq Hp) as (t & Ht & m & Hm & Htext & Hnone).
  exists m. split; [by eapply list_elem_of_lookup_2|]. subst t.
  split; [|split; [done|]].
  - apply nth_lookup_Some. rewrite Hh.
    change (map ?f msgs) with (f <$> msgs). by rewrite list_lookup_fmap, Hm.
  - apply nth_lookup_Some.
    change (map model_encode texts) with (model_encode <$> texts).
    by rewrite list_lookup_fmap, Ht.
Qed.

Lemma embed_batches_fresh hashes bs acc :
  hashes = map (fun m => _compute_text_hash (searchable_text m)) msgs ->
  Forall (fun b => Forall2 (queued cache msgs) b.1 b.2) bs ->
  fresh_entries cache msgs acc.1.2 ->
  fresh_entries cache msgs (fold_left (embed_batch hashes) bs acc).1.2.
Proof.
  intros Hh. revert acc. induction bs as [|b bs IH]; intros acc Hbs Hacc; [done|].
  apply Forall_cons in Hbs as [Hb Hbs]. cbn [fold_left]. apply IH; [done|].
  rewrite embed_batch_cache. by apply store_batch_fresh.
Qed.
End FreshFacts.

Lemma world_inputs_log e w : world_inputs (log e w) = world_inputs w.
Proof. done. Qed.

Lemma embed_batches_inputs `{Capabilities} hashes bs acc :
  world_inputs (fold_left (embed_batch hashes) bs acc).2 = world_inputs acc.2.
Proof.
  revert acc. induction bs as [|b bs IH]; intros acc; [done|].
  cbn [fold_left]. by rewrite IH, embed_batch_world.
Qed.

Lemma save_cache_inputs `{Capabilities} nc w :
  world_inputs (_save_cache nc w) = world_inputs w.
Proof. unfold _save_cache. by destruct (cache_writable w). Qed.

Lemma indexed_messages_inputs w w' :
  world_inputs w' = world_inputs w -> indexed_messages w' = indexed_messages w.
Proof.
  unfold world_inputs. intros [= Hc Hcli Hide Hcm Him Hlim _].
  unfold indexed_messages, load_messages_for_sessions, load_session_messages,
    list_all_sessions.
  by rewrite Hc, Hcli, Hide, Hcm, Him, Hlim.
Qed.

(** What one build does, seen from outside: the world it leaves, the
    messages it indexes and the cache it writes. *)
Lemma build_index_world `{Capabilities} (w : World) (st : ConversationIndex) :
  let w' := (build_index w st).1 in
  let msgs := indexed_messages w in
  _messages (build_index w st).2 = msgs ∧
  world_inputs w' = world_inputs w ∧
  ∃ new_cache,
    fresh_entries (cache_file w) msgs new_cache ∧
    (∀ m, m ∈ msgs -> cache_file w !! _compute_text_hash (searchable_text m) = None ->
          is_Some (new_cache !! _compute_text_hash (searchable_text m))) ∧
    cache_file w' =
      (if cache_writable w then new_cache ∪ cache_file w else cache_file w) ∧
    ∃ saved,
      events w' = events w ++ BuildIndex ::
                    map EncodeBatch (batches 100 (uncached_texts (cache_file w) msgs))
                    ++ saved ∧
      (new_cache = ∅ -> saved = []).
Proof.
  intros w' msgs. subst w' msgs. unfold indexed_messages, build_index.
  change (list_all_sessions (log BuildIndex w)) with (list_all_sessions w).
  change (memory_limit (log BuildIndex w)) with (memory_limit w).
  change (load_messages_for_sessions (log BuildIndex w))
    with (load_messages_for_sessions w).
  destruct (select_sessions_within_limit _ _) as [selected excluded]. cbn [fst].
  destruct (load_messages_for_sessions w selected) as [|m0 ms].
  { simpl. split; [done|]. split; [done|]. exists ∅.
    split; [intros h v Hl; by rewrite lookup_empty in Hl|].
    split; [intros m Hm; by apply elem_of_nil in Hm|].
    split; [by rewrite (left_id_L ∅ (∪)); destruct (cache_writable w)|].
    exists []. split; [reflexivity|done]. }
  set (msgs := m0 :: ms).
  change (_load_cache (log BuildIndex w)) with (cache_file w).
  set (cache := cache_file w).
  pose proof (scan_messages_spec cache 0 msgs) as Hscan.
  pose proof (scan_messages_queued cache msgs 0 [] msgs eq_refl eq_refl) as Hqueued.
  destruct (scan_messages cache 0 msgs) as [[hashes txts] indices].
  destruct Hscan as (Hh & Ht & Hl & Hi). simpl in Hqueued.
  destruct (batches_zip 100 txts indices Hl) as [Hfst Hsnd].
  pose proof (batches_from_queued cache msgs 100 (length txts) txts indices Hqueued)
    as Hbs.
  rewrite Hl in Hbs at 2. fold (batches 100 txts) (batches 100 indices) in Hbs.
  match goal with |- context [fold_left ?f ?bs ?acc] =>
    pose proof (embed_batches_world hashes bs acc) as (He & _ & Hc & Hw);
    pose proof (embed_batches_keys hashes bs acc) as [_ Hkeys];
    pose proof (embed_batches_inputs hashes bs acc) as Hin;
    pose proof (embed_batches_fresh cache msgs hashes bs acc Hh Hbs) as Hfresh;
    destruct (fold_left f bs acc) as [[embeddings new_cache] w2] end.
  simpl in He, Hc, Hw, Hkeys, Hin, Hfresh.
  unfold _build_metadata_indices. subst msgs. cbn [fst snd _messages].
  set (msgs := m0 :: ms) in *.
  assert (Hev : events w2 =
            events w ++ BuildIndex :: map EncodeBatch (batches 100 txts)).
  { rewrite He, <- app_assoc. simpl. f_equal. f_equal.
    replace (map EncodeBatch (batches 100 txts))
      with (map EncodeBatch (zip (batches 100 txts) (batches 100 indices)).*1)
      by by rewrite Hfst.
    generalize (zip (batches 100 txts) (batches 100 indices)).
    intros bs. induction bs as [|b bs IH]; simpl; [done|]. by rewrite IH. }
  rewrite Ht in Hev.
  split; [done|]. split.
  { destruct (decide (new_cache = ∅)); [done|]. by rewrite save_cache_inputs. }
  exists new_cache.
  split; [apply Hfresh; intros h v Hlook; by rewrite lookup_empty in Hlook|].
  split.
  { intros m Hm Hnone. apply list_elem_of_lookup in Hm as [k Hk].
    specialize (Hi k m Hk Hnone). simpl in Hi.
    rewrite <- (batches_concat 100 indices) in Hi by lia.
    apply list_elem_of_In, in_concat in Hi as (batch & Hbatch & Hin').
    apply list_elem_of_In in Hbatch, Hin'.
    rewrite <- Hsnd in Hbatch.
    apply list_elem_of_fmap in Hbatch as (b & -> & Hb).
    specialize (Hkeys b k Hb Hin').
    replace (nth k hashes EmptyString)
      with (_compute_text_hash (searchable_text m)) in Hkeys; [done|].
    symmetry. apply nth_lookup_Some. rewrite Hh.
    change (map ?f msgs) with (f <$> msgs). by rewrite list_lookup_fmap, Hk. }
  destruct (decide (new_cache = ∅)) as [->|Hne].
  - split; [rewrite Hc, (left_id_L ∅ (∪)); by destruct (cache_writable w)|].
    exists []. by rewrite app_nil_r.
  - unfold _save_cache. rewrite Hw. destruct (cache_writable w).
    + simpl. unfold _load_cache. rewrite Hc. split; [done|].
      eexists. split; [by rewrite Hev, <- app_assoc|done].
    + split; [done|]. exists []. by rewrite app_nil_r.
Qed.

Lemma uncached_texts_warm `{Capabilities} cache msgs :
  (∀ m, m ∈ msgs -> is_Some (cache !! _compute_text_hash (searchable_text m))) ->
  uncached_texts cache msgs = [].
Proof.
  intros Hall. unfold uncached_texts. rewrite filter_none; [done|].
  intros m Hm Hnone. destruct (Hall m Hm) as [v Hv]. by rewrite Hv in Hnone.
Qed.

(** A build that could write its cache makes the next build over the same
    sources cheap and exact: the next build, from any index state, loads
    the same messages, calls the model for no text and writes nothing;
    and when no two different texts of the corpus share a hash it stores
    the same vectors. *)
Theorem rebuild_reuses_cache `{Capabilities} (w : World) (st st' : ConversationIndex) :
  cache_writable w = true ->
  let w1 := (build_index w st).1 in
  let st1 := (build_index w st).2 in
  let w2 := (build_index w1 st').1 in
  let st2 := (build_index w1 st').2 in
  _messages st2 = _messages st1 ∧
  events w2 = events w1 ++ [BuildIndex] ∧
  cache_file w2 = cache_file w1 ∧
  ((∀ m m', m ∈ _messages st1 -> m' ∈ _messages st1 ->
      _compute_text_hash (searchable_text m) = _compute_text_hash (searchable_text m') ->
      searchable_text m = searchable_text m') ->
   _embeddings st2 = _embeddings st1).
Proof.
  intros Hwritable w1 st1 w2 st2.
  destruct (build_index_world w st)
    as (Hmsgs1 & Hin1 & nc1 & Hfresh1 & Hnew1 & Hcache1 & _).
  destruct (build_index_world w1 st')
    as (Hmsgs2 & Hin2 & nc2 & Hfresh2 & _ & Hcache2 & saved & Hev2 & Hsaved).
  fold w1 in Hin1, Hcache1. fold st1 in Hmsgs1.
  fold w2 in Hin2, Hcache2, Hev2. fold st2 in Hmsgs2.
  rewrite Hwritable in Hcache1.
  assert (Hsame : indexed_messages w1 = indexed_messages w)
    by by apply indexed_messages_inputs.
  assert (Hw1 : cache_writable w1 = true).
  { unfold world_inputs in Hin1. injection Hin1 as _ _ _ _ _ _ Hw. congruence. }
  rewrite Hsame in *. rewrite Hw1 in Hcache2.
  set (msgs := indexed_messages w) in *.
  assert (Hwarm : ∀ m, m ∈ msgs ->
            is_Some (cache_file w1 !! _compute_text_hash (searchable_text m))).
  { intros m Hm. rewrite Hcache1. apply lookup_union_is_Some.
    destruct (cache_file w !! _compute_text_hash (searchable_text m)) eqn:Hc;
      [right; eauto|left; by apply Hnew1]. }
  assert (Hnc2 : nc2 = ∅).
  { apply map_empty. intros h. destruct (nc2 !! h) as [v|] eqn:Hl; [|done].
    destruct (Hfresh2 h v Hl) as (m & Hm & <- & Hnone & _).
    destruct (Hwarm m Hm) as [v' Hv']. by rewrite Hv' in Hnone. }
  split; [by rewrite Hmsgs2, Hmsgs1|].
  split.
  { rewrite Hev2, (Hsaved Hnc2), uncached_texts_warm by done. done. }
  split; [by rewrite Hcache2, Hnc2, (left_id_L ∅ (∪))|].
  intros Hinj.
  destruct (build_index_rows w st) as (emb1 & He1 & Hlen1 & _ & Hrows1).
  destruct (build_index_rows w1 st') as (emb2 & He2 & Hlen2 & _ & Hrows2).
  fold st1 in He1, Hlen1, Hrows1. fold st2 in He2, Hlen2, Hrows2.
  rewrite Hmsgs1 in Hlen1, Hrows1, Hinj. rewrite Hmsgs2 in Hlen2, Hrows2.
  rewrite He1, He2. f_equal. apply list_eq. intros i.
  destruct (msgs !! i) as [m|] eqn:Hm.
  - destruct (Hrows1 i m Hm) as [_ ->]. destruct (Hrows2 i m Hm) as [_ ->].
    f_equal. assert (Hin : m ∈ msgs) by by eapply list_elem_of_lookup_2.
    unfold expected_row at 1. rewrite Hcache1.
    destruct (cache_file w !! _compute_text_hash (searchable_text m)) as [v0|] eqn:Hc.
    + assert (Hnone : nc1 !! _compute_text_hash (searchable_text m) = None).
      { destruct (nc1 !! _) as [v|] eqn:Hl; [|done].
        destruct (Hfresh1 _ v Hl) as (m' & _ & _ & Hnone & _). congruence. }
      rewrite lookup_union_r, Hc by done. unfold expected_row. by rewrite Hc.
    + destruct (Hnew1 m Hin Hc) as [v Hv].
      rewrite (lookup_union_Some_l _ _ _ _ Hv).
      destruct (Hfresh1 _ v Hv) as (m' & Hm' & Hh & _ & ->).
      unfold expected_row. rewrite Hc. f_equal. by apply Hinj.
  - apply lookup_ge_None in Hm.
    rewrite !lookup_ge_None_2; [done|lia|lia].
Qed.

(** The three-message corpus built twice: the second build only logs
    itself and stores the same rows. *)
Lemma rebuild_reuses_cache_witness :
  let w1 := (build_index (H := toy_capabilities) toy_corpus ConversationIndex_init).1 in
  let st1 := (build_index (H := toy_capabilities) toy_corpus ConversationIndex_init).2 in
  cache_writable toy_corpus = true ∧
  events (build_index (H := toy_capabilities) w1 ConversationIndex_init).1 =
    events w1 ++ [BuildIndex] ∧
  _embeddings (build_index (H := toy_capabilities) w1 ConversationIndex_init).2 =
    _embeddings st1.
Proof.
  destruct (rebuild_reuses_cache (H := toy_capabilities) toy_corpus
              ConversationIndex_init ConversationIndex_init eq_refl)
    as (_ & Hev & _ & Hemb).
  split; [reflexivity|]. split; [exact Hev|].
  apply Hemb. intros m m' _ _ Hh. exact Hh.
Defined.

(** ** Session messages and context windows *)

Lemma get_messages_by_session_perm st sid :
  get_messages_by_session st sid ≡ₚ
  filter (fun m => session_id m = sid) (_messages st).
Proof. apply sorted_by_perm. Qed.

Lemma get_messages_by_session_elem st sid m :
  m ∈ get_messages_by_session st sid ↔ m ∈ _messages st ∧ session_id m = sid.
Proof.
  rewrite get_messages_by_session_perm, list_elem_of_filter. tauto.
Qed.

(** [get_messages_by_session] returns the messages of the index that
    belong to the session, each as often as the index holds it, in
    ascending position; messages at the same position keep the order they
    have in the index. *)
Theorem get_messages_by_session_sorted (st : ConversationIndex) (sid : string) :
  let session_messages := get_messages_by_session st sid in
  StronglySorted (fun a b => message_index a <= message_index b) session_messages ∧
  session_messages ≡ₚ filter (fun m => session_id m = sid) (_messages st) ∧
  (∀ m, m ∈ session_messages ↔ m ∈ _messages st ∧ session_id m = sid) ∧
  (∀ position,
     filter (fun m => message_index m = position) session_messages =
     filter (fun m => message_index m = position)
            (filter (fun m => session_id m = sid) (_messages st))).
Proof.
  intros session_messages. subst session_messages.
  split; [apply sorted_by_sorted|].
  split; [apply get_messages_by_session_perm|].
  split; [intros m; apply get_messages_by_session_elem|].
  intros position. unfold get_messages_by_session, sorted_by.
  apply stable_sort_filter. intros a b Ha Hb. lia.
Qed.

Lemma py_slice_inrange {A} (l : list A) (a b : Z) :
  0 <= a -> a <= b -> b <= Z.of_nat (length l) ->
  py_slice l a b = take (Z.to_nat b - Z.to_nat a) (drop (Z.to_nat a) l).
Proof.
  intros Ha Hab Hb. unfold py_slice, slice_index.
  destruct (a <? 0) eqn:Ea; [apply Z.ltb_lt in Ea; lia|].
  destruct (b <? 0) eqn:Eb; [apply Z.ltb_lt in Eb; lia|].
  rewrite !Z.min_l by lia. f_equal. lia.
Qed.

Lemma slice_split {A} (l : list A) (a b : nat) :
  (a <= b)%nat ->
  l = take a l ++ take (b - a) (drop a l) ++ drop b l.
Proof.
  intros Hab. rewrite app_assoc, take_take_drop.
  replace (a + (b - a))%nat with b by lia. by rewrite take_drop.
Qed.

(** With a context size of zero or more, the window around a message of
    the index is a run of consecutive messages of its session, at most
    [2 * context_size + 1] long, that holds a message with the uuid of the
    match; a message that has no message of its uuid in its session of the
    index comes back alone. *)
Theorem get_context_window_around_match (st : ConversationIndex)
    (message : IndexedMessage) (context_size : Z) :
  0 <= context_size ->
  let session_messages := get_messages_by_session st (session_id message) in
  let window := get_context_window st message context_size in
  (message ∈ _messages st ->
     (∃ before after, session_messages = before ++ window ++ after) ∧
     (∃ found, found ∈ window ∧ uuid found = uuid message) ∧
     Z.of_nat (length window) <= 2 * context_size + 1 ∧
     Forall (fun m => m ∈ _messages st ∧ session_id m = session_id message) window) ∧
  ((∀ m, m ∈ _messages st -> session_id m = session_id message ->
         uuid m ≠ uuid message) ->
   window = [message]).
Proof.
  intros Hcs session_messages window. split.
  - intros Hin. subst window. unfold get_context_window. fold session_messages.
    assert (Hsm : message ∈ session_messages).
    { apply get_messages_by_session_elem. done. }
    destruct (list_find_elem_of (fun m => uuid m = uuid message)
                session_messages message Hsm eq_refl) as [[idx found] Hfind].
    rewrite Hfind. apply list_find_Some in Hfind as (Hidx & Huuid & _).
    assert (Hlt : (idx < length session_messages)%nat) by by eapply lookup_lt_Some.
    set (start := Z.max 0 (Z.of_nat idx - context_size)).
    set (stop := Z.min (Z.of_nat (length session_messages))
                       (Z.of_nat idx + context_size + 1)).
    rewrite py_slice_inrange by (subst start stop; lia).
    assert (Hstart : (Z.to_nat start <= idx)%nat) by (subst start; lia).
    assert (Hstop : (idx < Z.to_nat stop)%nat) by (subst stop; lia).
    split; [|split; [|split]].
    + exists (take (Z.to_nat start) session_messages),
             (drop (Z.to_nat stop) session_messages).
      apply slice_split. lia.
    + exists found. split; [|done].
      apply (list_elem_of_lookup_2 _ (idx - Z.to_nat start)).
      apply lookup_take_Some. split; [|lia].
      rewrite lookup_drop. by replace (Z.to_nat start + (idx - Z.to_nat start))%nat
        with idx by lia.
    + rewrite length_take, length_drop. subst start stop. lia.
    + apply Forall_take, Forall_drop, Forall_forall.
      intros m Hm. by apply get_messages_by_session_elem.
  - intros Hnone. subst window. unfold get_context_window. fold session_messages.
    destruct (list_find _ session_messages) as [[idx found]|] eqn:Hfind; [|done].
    apply list_find_Some in Hfind as (Hidx & Huuid & _).
    apply list_elem_of_lookup_2, get_messages_by_session_elem in Hidx as [Hin Hsid].
    by destruct (Hnone found Hin Hsid).
Qed.

(** The window of size 1 around the middle message of the three-message
    corpus is the whole session. *)
Lemma get_context_window_around_match_witness :
  let st := (build_index (H := toy_capabilities) toy_corpus ConversationIndex_init).2 in
  let message := toy_message "s" 1 10 "bbbbbbbbbbbbbbbbbbbbbbbbbbbbbbbbbbbbbbbb" in
  0 <= 1 ∧ message ∈ _messages st ∧
  uuid <$> get_context_window st message 1 = ["s#0"; "s#1"; "s#2"]%string ∧
  Z.of_nat (length (get_context_window st message 1)) <= 2 * 1 + 1.
Proof.
  intros st message.
  assert (Hin : message ∈ _messages st).
  { vm_compute. apply list_elem_of_further. apply list_elem_of_here. }
  pose proof (get_context_window_around_match st message 1 ltac:(lia)) as [Hwin _].
  split; [lia|]. split; [exact Hin|]. split; [reflexivity|].
  apply (Hwin Hin).
Defined.

(** ** More on deduplication *)

Lemma merge_from_sublist d a l : merge_from d a l `sublist_of` a :: l.
Proof.
  revert a. induction l as [|c l IH]; intros a; simpl; [done|].
  destruct (message_index c.1 - message_index a.1 <=? d).
  - destruct (a.2 <? c.2).
    + apply sublist_cons, IH.
    + etrans; [apply IH|]. apply sublist_skip, sublist_cons. done.
  - apply sublist_skip, IH.
Qed.

Lemma merge_walk_sublist d l : merge_walk d l `sublist_of` l.
Proof. destruct l as [|a l]; [done|apply merge_from_sublist]. Qed.

(** Whatever is merged away is outscored by something kept. *)
Lemma merge_from_dominates d a l (r : scored) :
  r ∈ a :: l -> ∃ k, k ∈ merge_from d a l ∧ r.2 <= k.2.
Proof.
  revert a r. induction l as [|c l IH]; intros a r Hr; simpl.
  - apply list_elem_of_singleton in Hr as ->. exists a. split; [by left|lia].
  - destruct (message_index c.1 - message_index a.1 <=? d).
    + set (a' := if a.2 <? c.2 then c else a).
      assert (Ha : a.2 <= a'.2 ∧ c.2 <= a'.2).
      { subst a'. destruct (a.2 <? c.2) eqn:E;
          [apply Z.ltb_lt in E|apply Z.ltb_ge in E]; lia. }
      destruct (IH a' a' ltac:(by left)) as (k0 & Hk0 & Hle0).
      apply elem_of_cons in Hr as [->|Hr]; [exists k0; split; [done|lia]|].
      apply elem_of_cons in Hr as [->|Hr]; [exists k0; split; [done|lia]|].
      apply IH. by right.
    + apply elem_of_cons in Hr as [->|Hr]; [exists a; split; [by left|lia]|].
      destruct (IH c r Hr) as (k & Hk & Hle). exists k. split; [by right|done].
Qed.

(** Over positions in ascending order, what is kept lies more than the
    distance apart. *)
Lemma merge_from_spaced d a l :
  StronglySorted (fun x y : scored => message_index x.1 <= message_index y.1) (a :: l) ->
  StronglySorted (fun x y : scored => d < message_index y.1 - message_index x.1)
                 (merge_from d a l).
Proof.
  revert a. induction l as [|c l IH]; intros a Hs; simpl; [repeat constructor|].
  apply StronglySorted_cons in Hs as [Ha Hs].
  pose proof Hs as Hs'. apply StronglySorted_cons in Hs' as [Hc Hl].
  apply Forall_cons in Ha as [Hac Hal].
  destruct (message_index c.1 - message_index a.1 <=? d) eqn:E.
  - destruct (a.2 <? c.2); [by apply IH|].
    apply IH. by constructor.
  - apply Z.leb_gt in E. constructor; [by apply IH|].
    apply Forall_forall. intros k Hk.
    pose proof (elem_of_sublist _ _ _ Hk (merge_from_sublist d c l)) as Hk'.
    apply elem_of_cons in Hk' as [->|Hk']; [lia|].
    rewrite Forall_forall in Hc. specialize (Hc k Hk'). lia.
Qed.

Lemma dedup_session_spaced d g :
  StronglySorted (fun x y : scored => d < message_index y.1 - message_index x.1)
                 (dedup_session d g).
Proof.
  rewrite dedup_session_merge. unfold merge_walk.
  pose proof (sorted_by_sorted (fun x : scored => message_index x.1) g) as Hs.
  destruct (sorted_by _ g) as [|a l]; [constructor|]. by apply merge_from_spaced.
Qed.

Lemma dedup_session_submseteq d g : dedup_session d g ⊆+ g.
Proof.
  rewrite dedup_session_merge.
  etrans; [apply sublist_submseteq, merge_walk_sublist|].
  by rewrite sorted_by_perm.
Qed.

Lemma dedup_session_dominates d g (r : scored) :
  r ∈ g -> ∃ k, k ∈ dedup_session d g ∧ r.2 <= k.2.
Proof.
  intros Hr. rewrite dedup_session_merge. unfold merge_walk.
  rewrite <- (sorted_by_perm (fun x : scored => message_index x.1)) in Hr.
  destruct (sorted_by _ g) as [|a l]; [by apply elem_of_nil in Hr|].
  by apply merge_from_dominates.
Qed.

Lemma group_append_items key item g :
  flat_map snd (group_append key item g) ≡ₚ item :: flat_map snd g.
Proof.
  induction g as [|[k items] g IH]; cbn [group_append]; [done|].
  destruct (String.eqb k key); cbn [flat_map snd].
  - rewrite <- app_assoc. cbn [app]. by rewrite <- Permutation_middle.
  - rewrite IH. by rewrite <- Permutation_middle.
Qed.

Lemma group_by_session_items rs : flat_map snd (group_by_session rs) ≡ₚ rs.
Proof.
  unfold group_by_session. induction rs as [|r rs IH] using rev_ind; [done|].
  rewrite fold_left_app. cbn [fold_left]. rewrite group_append_items, IH.
  by rewrite <- Permutation_cons_append.
Qed.

Lemma flat_map_submseteq {A B} (f : A -> list B) (g : A -> list B) l :
  (∀ x, f x ⊆+ g x) -> flat_map f l ⊆+ flat_map g l.
Proof.
  intros Hf. induction l as [|x l IH]; simpl; [done|]. by apply submseteq_app.
Qed.

Lemma filter_all {A} (P : A -> Prop) `{!∀ x, Decision (P x)} (l : list A) :
  Forall P l -> filter P l = l.
Proof.
  induction 1 as [|x l Hx Hl IH]; [done|]. by rewrite filter_cons_True, IH.
Qed.

Lemma flat_map_ext_elem {A B} (f g : A -> list B) (l : list A) :
  (∀ x, x ∈ l -> f x = g x) -> flat_map f l = flat_map g l.
Proof.
  induction l as [|x l IH]; intros Hl; [done|].
  cbn [flat_map]. rewrite (Hl x) by (by left).
  rewrite IH; [done|]. intros y Hy. apply Hl. by right.
Qed.

Section GroupFilter.
Variable f : string * list scored -> list scored.
Variable sid : string.
Hypothesis f_session :
  ∀ g, Forall (fun r : scored => session_id r.1 = g.1) (f g).

Lemma filter_session_other g :
  g.1 ≠ sid -> filter (fun r : scored => session_id r.1 = sid) (f g) = [].
Proof.
  intros Hne. apply filter_none. intros r Hr Hsid.
  pose proof (f_session g) as Hall. rewrite Forall_forall in Hall.
  specialize (Hall r Hr). congruence.
Qed.

Lemma filter_session_same g :
  g.1 = sid -> filter (fun r : scored => session_id r.1 = sid) (f g) = f g.
Proof.
  intros Heq. apply filter_all. pose proof (f_session g) as Hall.
  by rewrite Heq in Hall.
Qed.

Lemma filter_session_groups_absent gs :
  ¬ sid ∈ gs.*1 ->
  filter (fun r : scored => session_id r.1 = sid) (flat_map f gs) = [].
Proof.
  induction gs as [|g gs IH]; intros Hn; [done|].
  cbn [flat_map]. rewrite filter_app, filter_session_other, IH; [done| |].
  - intros Hin. apply Hn. rewrite fmap_cons. by right.
  - intros Heq. apply Hn. rewrite fmap_cons, Heq. by left.
Qed.

Lemma filter_session_groups_present gs items :
  NoDup gs.*1 -> (sid, items) ∈ gs ->
  filter (fun r : scored => session_id r.1 = sid) (flat_map f gs) = f (sid, items).
Proof.
  induction gs as [|g gs IH]; intros Hnd Hin; [by apply elem_of_nil in Hin|].
  rewrite fmap_cons in Hnd. apply NoDup_cons in Hnd as [Hg Hnd].
  cbn [flat_map]. rewrite filter_app.
  apply elem_of_cons in Hin as [<-|Hin].
  - rewrite filter_session_same by done.
    rewrite filter_session_groups_absent by done. by rewrite app_nil_r.
  - rewrite filter_session_other, IH; [done|done|done|].
    intros Heq. apply Hg. rewrite Heq.
    apply list_elem_of_fmap. by exists (sid, items).
Qed.
End GroupFilter.

Lemma deduplicate_results_filter results context_size sid :
  filter (fun r : scored => session_id r.1 = sid)
         (_deduplicate_results results context_size) ≡ₚ
  dedup_session (2 * context_size)
    (filter (fun r : scored => session_id r.1 = sid) results).
Proof.
  destruct results as [|r0 rs]; [done|].
  unfold _deduplicate_results. cbv beta iota zeta. set (results := r0 :: rs).
  rewrite sorted_by_reverse_perm.
  destruct (group_by_session_grouped results) as (Hnd & Hkeys & Hitems).
  set (f := fun g : string * list scored => dedup_session (2 * context_size) g.2).
  assert (Hf : ∀ g, g ∈ group_by_session results ->
                Forall (fun r : scored => session_id r.1 = g.1) (f g)).
  { intros [k items] Hg. apply Forall_forall. intros r Hr.
    pose proof (elem_of_submseteq _ _ _ Hr (dedup_session_submseteq _ _)) as Hr'.
    simpl in Hr'. rewrite (Hitems k items Hg) in Hr'.
    apply list_elem_of_filter in Hr' as [Hr' _]. done. }
  set (f' := fun g : string * list scored =>
               filter (fun r : scored => session_id r.1 = g.1) (f g)).
  assert (Hff' : flat_map f (group_by_session results) =
                 flat_map f' (group_by_session results)).
  { apply flat_map_ext_elem. intros g Hg. subst f'. cbn beta.
    symmetry. apply filter_all, Hf, Hg. }
  rewrite Hff'.
  assert (Hf' : ∀ g, Forall (fun r : scored => session_id r.1 = g.1) (f' g)).
  { intros g. apply Forall_forall. intros r Hr.
    apply list_elem_of_filter in Hr as [Hr _]. done. }
  destruct (decide (sid ∈ (group_by_session results).*1)) as [Hin|Hn].
  - apply list_elem_of_fmap in Hin as ([k items] & -> & Hg). simpl.
    rewrite (filter_session_groups_present f' k Hf' _ items Hnd Hg).
    subst f'. cbn beta. cbn [fst snd].
    assert (Hall := Hf _ Hg). cbn [fst] in Hall.
    rewrite filter_all by done.
    subst f. cbn [snd]. by rewrite (Hitems k items Hg).
  - rewrite (filter_session_groups_absent f' sid Hf' _ Hn).
    rewrite filter_none; [done|].
    intros r Hr Hsid. apply Hn. rewrite <- Hsid. by apply Hkeys.
Qed.

(** Deduplication treats every session on its own: the entries of a
    session in the output are what the merge keeps of that session's
    results alone, and in ascending position they lie more than
    [2 * context_size] apart. *)
Theorem deduplicate_results_per_session (results : list scored)
    (context_size : Z) (sid : string) :
  let of_session := fun r : scored => session_id r.1 = sid in
  let kept := dedup_session (2 * context_size) (filter of_session results) in
  filter of_session (_deduplicate_results results context_size) ≡ₚ kept ∧
  StronglySorted
    (fun x y : scored => 2 * context_size < message_index y.1 - message_index x.1)
    kept.
Proof.
  intros of_session kept. split.
  - apply deduplicate_results_filter.
  - apply dedup_session_spaced.
Qed.

(** Deduplication invents nothing and loses no best match: its output is
    made of results it was given, each at most as often, and every result
    given has an entry of its own session in the output that scores at
    least as high; so a non-empty input gives a non-empty output. *)
Theorem deduplicate_results_keeps_best (results : list scored) (context_size : Z) :
  let kept := _deduplicate_results results context_size in
  kept ⊆+ results ∧
  (length kept <= length results)%nat ∧
  (∀ r : scored, r ∈ results ->
     ∃ k : scored, k ∈ kept ∧ session_id k.1 = session_id r.1 ∧ r.2 <= k.2) ∧
  (results ≠ [] -> kept ≠ []).
Proof.
  intros kept.
  assert (Hsub : kept ⊆+ results).
  { subst kept. destruct results as [|r0 rs]; [done|].
    unfold _deduplicate_results. cbv beta iota zeta.
    rewrite sorted_by_reverse_perm.
    rewrite <- (group_by_session_items (r0 :: rs)) at 2.
    apply flat_map_submseteq. intros g. apply dedup_session_submseteq. }
  assert (Hdom : ∀ r : scored, r ∈ results ->
     ∃ k : scored, k ∈ kept ∧ session_id k.1 = session_id r.1 ∧ r.2 <= k.2).
  { intros r Hr.
    assert (Hr' : r ∈ filter (fun x : scored => session_id x.1 = session_id r.1)
                             results) by by apply list_elem_of_filter.
    destruct (dedup_session_dominates (2 * context_size) _ r Hr') as (k & Hk & Hle).
    rewrite <- (deduplicate_results_filter results context_size) in Hk.
    apply list_elem_of_filter in Hk as [Hsid Hk]. by exists k. }
  split; [done|]. split; [by apply submseteq_length|]. split; [done|].
  intros Hne Hnil. destruct results as [|r rs]; [done|].
  destruct (Hdom r ltac:(by left)) as (k & Hk & _).
  rewrite Hnil in Hk. by apply elem_of_nil in Hk.
Qed.

(** Three results of one session at positions 0, 2 and 20 with context
    size 3: the first two merge and the best of them stays. *)
Lemma deduplicate_results_keeps_best_witness :
  let results := [(toy_message "s" 0 1 "a", 3000); (toy_message "s" 2 2 "b", 5000);
                  (toy_message "s" 20 3 "c", 2500)] in
  _deduplicate_results results 3 =
    [(toy_message "s" 2 2 "b", 5000); (toy_message "s" 20 3 "c", 2500)] ∧
  ∃ k : scored, k ∈ _deduplicate_results results 3 ∧ 3000 <= k.2.
Proof.
  intros results. split; [reflexivity|].
  destruct (deduplicate_results_keeps_best results 3) as (_ & _ & Hdom & _).
  destruct (Hdom (toy_message "s" 0 1 "a", 3000)) as (k & Hk & _ & Hle).
  - subst results. apply list_elem_of_here.
  - exists k. split; [exact Hk|exact Hle].
Defined.

(** ** Truncation of the message text *)

Lemma string_length_append (s t : string) :
  String.length (s +:+ t) = (String.length s + String.length t)%nat.
Proof. induction s as [|c s IH]; simpl; [done|by rewrite IH]. Qed.

Lemma substring_0_length (n : nat) (s : string) :
  String.length (String.substring 0 n s) = Nat.min n (String.length s).
Proof.
  revert s. induction n as [|n IH]; intros [|c s]; simpl; try done.
  by rewrite IH.
Qed.

Lemma substring_0_prefix (n : nat) (s : string) :
  String.prefix (String.substring 0 n s) s = true.
Proof.
  revert s. induction n as [|n IH]; intros [|c s]; simpl; try done.
  destruct (ascii_dec c c); [apply IH|done].
Qed.

(** With a limit of three characters or more, [_truncate] never returns
    more than the limit: a text within the limit comes back as it is, and
    a longer one is cut to exactly the limit, a prefix of the text followed
    by three dots. *)
Theorem truncate_within_limit (content : string) (max_length : nat) :
  (3 <= max_length)%nat ->
  (String.length (_truncate content max_length) <= max_length)%nat ∧
  ((String.length content <= max_length)%nat ->
     _truncate content max_length = content) ∧
  ((max_length < String.length content)%nat ->
     String.length (_truncate content max_length) = max_length ∧
     ∃ kept : string,
       _truncate content max_length = (kept +:+ "...")%string ∧
       String.prefix kept content = true ∧
       String.length kept = (max_length - 3)%nat).
Proof.
  intros Hmax. unfold _truncate.
  destruct (String.length content <=? max_length)%nat eqn:E.
  - apply Nat.leb_le in E. split; [done|]. split; [done|]. lia.
  - apply Nat.leb_gt in E.
    assert (Hlen : String.length
              (String.substring 0 (max_length - 3) content +:+ "...") = max_length).
    { rewrite string_length_append, substring_0_length. simpl. lia. }
    split; [lia|]. split; [lia|]. intros _. split; [done|].
    exists (String.substring 0 (max_length - 3) content).
    split; [done|]. split; [apply substring_0_prefix|].
    rewrite substring_0_length. lia.
Qed.

(** A text of ten characters under a limit of eight. *)
Lemma truncate_within_limit_witness :
  (3 <= 8)%nat ∧
  _truncate "0123456789" 8 = "01234..."%string ∧
  String.length (_truncate "0123456789" 8) = 8%nat.
Proof.
  split; [lia|]. split; [reflexivity|].
  apply (truncate_within_limit "0123456789" 8); simpl; lia.
Defined.

(** ** The page of results in a response *)

Lemma truncate_length (content : string) (max_length : nat) :
  (3 <= max_length)%nat ->
  (String.length (_truncate content max_length) <= max_length)%nat.
Proof.
  intros Hmax. unfold _truncate.
  destruct (String.length content <=? max_length)%nat eqn:E.
  - by apply Nat.leb_le in E.
  - rewrite string_length_append, substring_0_length. simpl. lia.
Qed.

Lemma deduplicate_results_submseteq (results : list scored) (context_size : Z) :
  _deduplicate_results results context_size ⊆+ results.
Proof.
  destruct results as [|r0 rs]; [done|].
  unfold _deduplicate_results. cbv beta iota zeta.
  rewrite sorted_by_reverse_perm.
  rewrite <- (group_by_session_items (r0 :: rs)) at 2.
  apply flat_map_submseteq. intros g. apply dedup_session_submseteq.
Qed.

Lemma deduplicate_results_sorted (results : list scored) (context_size : Z) :
  StronglySorted (fun a b : scored => b.2 <= a.2)
                 (_deduplicate_results results context_size).
Proof.
  destruct results as [|r0 rs]; [constructor|].
  unfold _deduplicate_results. cbv beta iota zeta.
  apply (sorted_by_reverse_sorted snd).
Qed.

Lemma py_slice_sublist {A} (l : list A) (a b : Z) : py_slice l a b `sublist_of` l.
Proof.
  unfold py_slice. cbv zeta.
  etrans; [apply sublist_take|apply sublist_drop].
Qed.

Lemma py_slice_page_length {A} (l : list A) (offset page : Z) :
  0 < page -> Z.of_nat (length (py_slice l offset (offset + page))) <= page.
Proof.
  intros Hpage. unfold py_slice, slice_index. cbv zeta.
  rewrite length_take, length_drop.
  destruct (offset <? 0) eqn:Ea; destruct (offset + page <? 0) eqn:Eb;
    try apply Z.ltb_lt in Ea; try apply Z.ltb_lt in Eb;
    try apply Z.ltb_ge in Ea; try apply Z.ltb_ge in Eb; lia.
Qed.

Lemma StronglySorted_sublist {A} (R : A -> A -> Prop) (l k : list A) :
  l `sublist_of` k -> StronglySorted R k -> StronglySorted R l.
Proof.
  intros Hsub. induction Hsub as [|x l k Hsub IH|x l k Hsub IH]; intros Hk.
  - constructor.
  - apply StronglySorted_cons in Hk as [Hx Hk]. apply StronglySorted_cons.
    split; [|by apply IH].
    rewrite Forall_forall in *. intros y Hy. apply Hx.
    eapply elem_of_submseteq; [exact Hy|by apply sublist_submseteq].
  - apply StronglySorted_cons in Hk as [_ Hk]. by apply IH.
Qed.

(** What [search] hands to [search_conversations]: the index it searched
    is the one [ensure_index] gives, and every pair found is at or above
    the threshold and holds a message of that index that passes both
    filters. *)
Lemma search_found `{Capabilities} query workspace_filter source_filter
    threshold max_results after before w st w' st' found :
  search query workspace_filter source_filter threshold max_results
         after before w st = (w', st', found) ->
  st' = (ensure_index w st).2 ∧
  Forall (fun r : scored =>
    threshold <= r.2 ∧ r.1 ∈ _messages st' ∧
    workspace_mismatch workspace_filter r.1 = false ∧
    source_mismatch source_filter r.1 = false) found.
Proof.
  unfold search. destruct (ensure_index w st) as [w1 st1]. cbn [snd].
  destruct (_embeddings st1) as [[|row rows]|];
    [intros [= <- <- <-]; split; [done|constructor]|
    |intros [= <- <- <-]; split; [done|constructor]].
  destruct (date_candidates st1 after before) as [|c cs];
    [intros [= <- <- <-]; split; [done|constructor]|].
  intros [= <- <- <-]. split; [done|].
  apply Forall_and. split; [by apply search_walk_threshold|].
  apply search_walk_passes. constructor.
Qed.

(** A response of [search_conversations] is sound for the request: with a
    positive page size it holds at most that many results, never more than
    [total_matches]; the results come in non-increasing order of the score
    reported; each reports the rounding to four decimals of a similarity at
    or above the threshold in force, and describes a message of the index,
    one whose workspace starts with a non-empty workspace filter and whose
    source is the one asked for; the message text is cut to 2000
    characters; and [excluded_sessions] is the count the index recorded.
    The score reported is rounded after the threshold test, so it may
    itself lie below the threshold. *)
Theorem search_conversations_results_sound `{Capabilities} (query : string)
    (workspace_filter : option string) (source_filter : option Source)
    (after before : option string) (context_size threshold max_results : option Z)
    (offset : Z) (w : World) (st : ConversationIndex) (resp : SearchResponse) :
  (search_conversations query workspace_filter source_filter after before
     context_size threshold max_results offset w st).2 = inr resp ->
  let page := or_default max_results (default_max_results (search_defaults (config w))) in
  let floor := or_default threshold (default_threshold (search_defaults (config w))) in
  let built := (ensure_index w st).2 in
  (0 < page -> Z.of_nat (length (results resp)) <= page) ∧
  Z.of_nat (length (results resp)) <= total_matches resp ∧
  StronglySorted (fun a b : SearchResult => score b <= score a) (results resp) ∧
  Forall (fun r : SearchResult =>
    (∃ similarity : Z, floor <= similarity ∧ score r = round similarity 4) ∧
    (String.length (mm_content (matched_message r)) <= 2000)%nat ∧
    (∃ msg : IndexedMessage,
       msg ∈ _messages built ∧
       mm_uuid (matched_message r) = uuid msg ∧
       mm_session_id (matched_message r) = session_id msg ∧
       mm_workspace (matched_message r) = workspace msg ∧
       mm_source (matched_message r) = source msg) ∧
    (∀ p, workspace_filter = Some p -> p ≠ EmptyString ->
          String.prefix p (mm_workspace (matched_message r)) = true) ∧
    (∀ s, source_filter = Some s -> mm_source (matched_message r) = s))
    (results resp) ∧
  excluded_sessions resp = _excluded_session_count built.
Proof.
  intros Hresp page floor built. unfold search_conversations in Hresp.
  destruct (parse_date_filter after) as [e|after_dt]; [done|].
  destruct (parse_date_filter before) as [e|before_dt]; [done|].
  fold page floor in Hresp.
  destruct (search _ _ _ _ _ _ _ _ _) as [[w' st'] raw] eqn:Hsearch.
  apply search_found in Hsearch as [Hst Hraw]. fold built in Hst. subst st'.
  destruct raw as [|r0 raw].
  { cbn in Hresp. injection Hresp as <-. cbn.
    split; [intros Hpage; change (Z.of_nat 0) with 0; lia|].
    split; [reflexivity|]. split; [constructor|]. split; [constructor|reflexivity]. }
  cbn [snd] in Hresp. injection Hresp as <-.
  cbn [results total_matches excluded_sessions].
  set (cs := or_default context_size _) in *.
  set (deduplicated := _deduplicate_results (r0 :: raw) cs).
  set (paginated := py_slice deduplicated offset (offset + page)).
  assert (Hsub : paginated `sublist_of` deduplicated) by apply py_slice_sublist.
  assert (Hscore : ∀ r : scored, score (make_result built cs r) = round r.2 4).
  { by intros [msg sc]. }
  split; [intros Hpage; rewrite length_map; by apply py_slice_page_length|].
  split.
  { rewrite length_map. apply Nat2Z.inj_le.
    by apply submseteq_length, sublist_submseteq. }
  split.
  { apply StronglySorted_fmap with (R1 := fun a b : scored => b.2 <= a.2).
    - intros a b Hab. rewrite !Hscore. by apply round_mono.
    - eapply StronglySorted_sublist; [exact Hsub|].
      apply deduplicate_results_sorted. }
  split; [|done].
  apply Forall_forall. intros res Hres.
  apply list_elem_of_fmap in Hres as (r & -> & Hr).
  assert (Hin : r ∈ r0 :: raw).
  { eapply elem_of_submseteq; [|apply deduplicate_results_submseteq].
    eapply elem_of_submseteq; [exact Hr|by apply sublist_submseteq]. }
  rewrite Forall_forall in Hraw. destruct (Hraw r Hin) as (Hthr & Hmsg & Hw & Hs).
  destruct r as [msg sc]. cbn [fst snd] in *.
  cbn [make_result score matched_message mm_content mm_uuid mm_session_id
       mm_workspace mm_source].
  split; [by exists sc|]. split; [apply truncate_length; lia|].
  split; [by exists msg|]. split.
  - intros p -> Hp. unfold workspace_mismatch in Hw.
    destruct p; [done|]. by apply negb_false_iff in Hw.
  - intros s ->. unfold source_mismatch in Hs.
    apply negb_false_iff in Hs. by apply Source_eqb_eq.
Qed.

(** On the three-message corpus with the defaults: one result, scored
    0.4, from the command-line source. *)
Lemma search_conversations_results_sound_witness :
  ∃ resp,
    (search_conversations (H := toy_capabilities) "q" None (Some CLI) None None
       None None None 0 toy_corpus ConversationIndex_init).2 = inr resp ∧
    map score (results resp) = [4000] ∧
    Forall (fun r : SearchResult =>
              (String.length (mm_content (matched_message r)) <= 2000)%nat ∧
              mm_source (matched_message r) = CLI) (results resp).
Proof.
  eexists. split; [vm_compute; reflexivity|]. split; [reflexivity|].
  pose proof (search_conversations_results_sound (H := toy_capabilities) "q" None
                (Some CLI) None None None None None 0 toy_corpus
                ConversationIndex_init _ eq_refl) as (_ & _ & _ & Hall & _).
  eapply Forall_impl; [exact Hall|].
  intros r (_ & Hlen & _ & _ & Hs). split; [exact Hlen|by apply Hs].
Defined.

(** ** The session listing and its fingerprint *)

Lemma string_compare_trans (a b c : string) :
  String.compare a b ≠ Gt -> String.compare b c ≠ Gt -> String.compare a c ≠ Gt.
Proof.
  revert b c. induction a as [|x a IH]; intros [|y b] [|z c]; simpl; try done.
  unfold Ascii.compare.
  destruct (N.compare_spec (N_of_ascii x) (N_of_ascii y)) as [Hxy|Hxy|Hxy];
    destruct (N.compare_spec (N_of_ascii y) (N_of_ascii z)) as [Hyz|Hyz|Hyz];
    destruct (N.compare_spec (N_of_ascii x) (N_of_ascii z)) as [Hxz|Hxz|Hxz];
    try done; try lia.
  apply IH.
Qed.

Lemma string_leb_trans (a b c : string) :
  String.leb a b = true -> String.leb b c = true -> String.leb a c = true.
Proof.
  unfold String.leb. intros Hab Hbc.
  pose proof (string_compare_trans a b c) as Hac.
  destruct (String.compare a b); destruct (String.compare b c);
    destruct (String.compare a c); try done; by destruct Hac.
Qed.

(** [sorted] on strings gives one list for every order of its input. *)
Lemma stable_sort_string_perm (l k : list string) :
  l ≡ₚ k -> stable_sort String.leb l = stable_sort String.leb k.
Proof.
  intros Hperm.
  assert (Htotal : ∀ a b, String.leb a b = false -> String.leb b a = true).
  { intros a b Hab. destruct (String.leb_total a b) as [E|E]; congruence. }
  apply (StronglySorted_unique_strong (fun a b => String.leb a b = true)).
  - intros a b _ _ Hab Hba. by apply String.leb_antisym.
  - apply stable_sort_sorted; [exact Htotal|exact string_leb_trans].
  - apply stable_sort_sorted; [exact Htotal|exact string_leb_trans].
  - by rewrite !stable_sort_perm.
Qed.

Lemma list_all_sessions_perm (w : World) :
  list_all_sessions w ≡ₚ
    (if cli_enabled (config w) then cli_sessions w else []) ++
    (if ide_enabled (config w) then ide_sessions w else []).
Proof. apply sorted_by_reverse_perm. Qed.

Lemma fingerprint_perm `{Capabilities} (w w' : World) :
  list_all_sessions w' ≡ₚ list_all_sessions w ->
  _get_sessions_fingerprint w' = _get_sessions_fingerprint w.
Proof.
  intros Hperm. unfold _get_sessions_fingerprint. cbv zeta. do 2 f_equal.
  apply stable_sort_string_perm. by apply Permutation_map.
Qed.

(** [list_all_sessions] lists the sessions of the enabled sources and
    no others, each as often as its source lists it, newest first; sessions
    of one timestamp keep the order in which the sources list them, those
    of the command line before those of the editor. *)
Theorem list_all_sessions_newest_first (w : World) :
  let enabled :=
    (if cli_enabled (config w) then cli_sessions w else []) ++
    (if ide_enabled (config w) then ide_sessions w else []) in
  StronglySorted (fun a b => timestamp_fallback b <= timestamp_fallback a)
                 (list_all_sessions w) ∧
  list_all_sessions w ≡ₚ enabled ∧
  (∀ t, filter (fun s => timestamp_fallback s = t) (list_all_sessions w) =
        filter (fun s => timestamp_fallback s = t) enabled) ∧
  (cli_enabled (config w) = false -> ide_enabled (config w) = false ->
   list_all_sessions w = []).
Proof.
  intros enabled. split; [apply sorted_by_reverse_sorted|].
  split; [apply list_all_sessions_perm|]. split.
  - intros t. unfold list_all_sessions, sorted_by_reverse. cbv zeta.
    apply stable_sort_filter. intros a b Ha Hb. lia.
  - intros Hcli Hide. unfold list_all_sessions. by rewrite Hcli, Hide.
Qed.

(** Three sessions listed oldest first come back newest first. *)
Lemma list_all_sessions_newest_first_witness :
  list_all_sessions (toy_world (rev toy_sessions) []) = toy_sessions ∧
  StronglySorted (fun a b => timestamp_fallback b <= timestamp_fallback a)
                 (list_all_sessions (toy_world (rev toy_sessions) [])).
Proof.
  split; [reflexivity|].
  apply (list_all_sessions_newest_first (toy_world (rev toy_sessions) [])).
Defined.

(** The fingerprint does not depend on the order in which the sources
    list their sessions: two worlds of one configuration whose sources
    list the same sessions in any order have the same fingerprint, so an
    index asks for a rebuild in one exactly when it does in the other, and
    an index brought up to date in one is left as it is in the other. *)
Theorem sessions_fingerprint_order_independent `{Capabilities} (w w' : World) :
  config w' = config w ->
  cli_sessions w' ≡ₚ cli_sessions w ->
  ide_sessions w' ≡ₚ ide_sessions w ->
  _get_sessions_fingerprint w' = _get_sessions_fingerprint w ∧
  (∀ st, needs_rebuild w' st = needs_rebuild w st) ∧
  (∀ st, ensure_index w' (ensure_index w st).2 = (w', (ensure_index w st).2)).
Proof.
  intros Hconfig Hcli Hide.
  assert (Hfp : _get_sessions_fingerprint w' = _get_sessions_fingerprint w).
  { apply fingerprint_perm. rewrite !list_all_sessions_perm, Hconfig.
    destruct (cli_enabled (config w)), (ide_enabled (config w));
      by rewrite ?Hcli, ?Hide. }
  split; [done|]. split.
  - intros st. unfold needs_rebuild. by rewrite Hfp.
  - intros st. destruct (ensure_index_effect w st) as (_ & _ & Hemb & Hst).
    apply ensure_index_noop; [done|]. by rewrite Hst.
Qed.

(** The three sessions listed in the opposite order. *)
Lemma sessions_fingerprint_order_independent_witness :
  _get_sessions_fingerprint (H := toy_capabilities)
    (toy_world (rev toy_sessions) []) =
  _get_sessions_fingerprint (H := toy_capabilities) (toy_world toy_sessions []).
Proof.
  apply (sessions_fingerprint_order_independent (H := toy_capabilities)
           (toy_world toy_sessions []) (toy_world (rev toy_sessions) [])).
  - reflexivity.
  - simpl. symmetry. apply Permutation_rev.
  - reflexivity.
Defined.

(** ** Searching an empty corpus *)

(** When every listed session carries a date the fingerprint can be taken
    of and the sessions within the budget hold no message, a search on an
    index that was never built builds it once and answers with the empty
    response: no result, a total of zero, no further page, the hint
    "No matches found. Try different search terms." and the number of
    sessions left out by the budget; the model is not called and the cache
    file is not touched. *)
Theorem search_conversations_empty_corpus `{Capabilities} (query : string)
    (workspace_filter : option string) (source_filter : option Source)
    (after before : option string) (context_size threshold max_results : option Z)
    (offset : Z) (w : World) (st : ConversationIndex)
    (after_dt before_dt : option datetime) :
  sessions_dated w ->
  _embeddings st = None ->
  indexed_messages w = [] ->
  parse_date_filter after = inr after_dt ->
  parse_date_filter before = inr before_dt ->
  let out := search_conversations query workspace_filter source_filter after before
               context_size threshold max_results offset w st in
  out.2 = inr {| results := [];
                 sr_query := query;
                 total_matches := 0;
                 sr_offset := 0;
                 has_more := false;
                 excluded_sessions :=
                   length (select_sessions_within_limit (list_all_sessions w)
                                                        (memory_limit w)).2;
                 hint := Some "No matches found. Try different search terms."%string |} ∧
  _messages out.1.2 = [] ∧
  events out.1.1 = events w ++ [BuildIndex] ∧
  cache_file out.1.1 = cache_file w.
Proof.
  intros _ Hfresh Hempty Hafter Hbefore out. subst out.
  unfold search_conversations. rewrite Hafter, Hbefore.
  unfold search, ensure_index. rewrite Hfresh.
  unfold indexed_messages in Hempty. unfold build_index.
  change (list_all_sessions (log BuildIndex w)) with (list_all_sessions w).
  change (memory_limit (log BuildIndex w)) with (memory_limit w).
  destruct (select_sessions_within_limit (list_all_sessions w) (memory_limit w))
    as [selected excluded].
  cbn [fst snd] in *.
  change (load_messages_for_sessions (log BuildIndex w) selected)
    with (load_messages_for_sessions w selected).
  rewrite Hempty. done.
Qed.

(** A world that lists one session of November 2023 without messages. *)
Lemma search_conversations_empty_corpus_witness :
  sessions_dated (toy_world [toy_session "s" 3 1700000000000000] []) ∧
  (search_conversations (H := toy_capabilities) "q" None None (Some "5"%string) None
     None None None 3 (toy_world [toy_session "s" 3 1700000000000000] [])
     ConversationIndex_init).2 =
  inr {| results := []; sr_query := "q"; total_matches := 0; sr_offset := 0;
         has_more := false; excluded_sessions := 0;
         hint := Some "No matches found. Try different search terms."%string |}.
Proof.
  assert (Hdated : sessions_dated (toy_world [toy_session "s" 3 1700000000000000] [])).
  { unfold sessions_dated.
    change (list_all_sessions _) with [toy_session "s" 3 1700000000000000].
    apply Forall_cons. split; [|constructor].
    unfold timestamp_returns, timestamp_fallback, toy_session. cbn [modified]. lia. }
  split; [exact Hdated|].
  apply (search_conversations_empty_corpus (H := toy_capabilities) "q" None None
           (Some "5"%string) None None None None 3
           (toy_world [toy_session "s" 3 1700000000000000] []) ConversationIndex_init
           (Some 5) None); [exact Hdated|reflexivity..].
Defined.
